(** * Neural style transfer (Chapter 12, part 3)

    A shallow embedding of the notebook
    [Chapter12_generative-dl/part03_neural-style-transfer/neural-style-transfer.ipynb]:
    the three loss functions, the combined loss, the learning-rate schedule,
    the image post-processing and the optimisation loop.

    Number models.  The notebook computes on [float32] tensors.  Two
    embeddings are used.

    Where a statement is about the form of a computation (the constants that
    normalise the style loss, the symmetry of the Gram matrix and of the
    losses, the learning-rate schedule, the clipping of the post-processing)
    a tensor entry is a real number ([R] of the Standard Library):
    [tf.square], [tf.reduce_sum], [tf.matmul], ... are the exact operations
    they round.  Rounding, overflow to infinity and NaN are outside that
    model.

    Where a statement is about the sign of a loss, or about when a loss is
    zero, rounding decides: a squared difference can underflow to zero, an
    intermediate value can overflow, and [inf - inf] is NaN.  These
    statements are made on a second embedding of the three losses, in IEEE
    binary32 with round to nearest even ([SpecFloat] of the Standard
    Library), whose definitions carry the suffix [32].  [tf.reduce_sum] is
    embedded as the sum from left to right; the facts on signs and zeros
    that the statements rest on are also proved of the sum taken in any
    order and grouping ([additions_nonneg], [additions_sign_clear]).  The
    inputs of the counterexamples are normal numbers: none is below
    [2^-126].

    Tensor model.  A tensor is what NumPy and TensorFlow store: a shape and a
    row-major buffer.  Indexing, slicing and transposition go through the
    row-major offset of a multi-index. *)

From Stdlib Require Import Reals Lra Lia List ZArith String DecimalString DecimalNat.
From Stdlib Require Import SpecFloat.
From stdpp Require Import gmap.
Import ListNotations.
Local Open Scope R_scope.

(** ** Tensors *)

Record tensor : Type := Tensor { shape : list nat; data : list R }.

(** Number of entries of a shape. *)
Definition numel (sh : list nat) : nat := fold_right Nat.mul 1%nat sh.

(** The buffer has as many entries as the shape says. *)
Definition well_formed (t : tensor) : Prop := length (data t) = numel (shape t).

(** Row-major offset of a multi-index. *)
Fixpoint offset (sh idx : list nat) : nat :=
  match sh, idx with
  | _ :: sh', i :: idx' => (i * numel sh' + offset sh' idx')%nat
  | _, _ => 0%nat
  end.

Definition get (t : tensor) (idx : list nat) : R :=
  nth (offset (shape t) idx) (data t) 0.

(** A multi-index within the bounds of a shape. *)
Definition in_range (sh idx : list nat) : Prop := Forall2 lt idx sh.

(** The row-major buffer of the tensor whose entry at [idx] is [f idx]. *)
Fixpoint tabulate (sh : list nat) (f : list nat -> R) : list R :=
  match sh with
  | [] => [f []]
  | d :: sh' => flat_map (fun i => tabulate sh' (fun idx => f (i :: idx))) (seq 0 d)
  end.

Definition build (sh : list nat) (f : list nat -> R) : tensor :=
  Tensor sh (tabulate sh f).

Definition sum_list_R (l : list R) : R := fold_right Rplus 0 l.

(** ** The TensorFlow operations the notebook calls *)

(** [a - b] and [a + b] on tensors.  At every call site of the notebook the
    two operands have the same shape; broadcasting between different shapes
    is not modelled, and the theorems below assume equal shapes wherever
    they depend on it. *)
Definition tsub (a b : tensor) : tensor :=
  Tensor (shape a) (zip_with Rminus (data a) (data b)).

Definition tadd (a b : tensor) : tensor :=
  Tensor (shape a) (zip_with Rplus (data a) (data b)).

Definition tf_square (x : tensor) : tensor :=
  Tensor (shape x) (map (fun v => v * v) (data x)).

Definition tf_reduce_sum (x : tensor) : R := sum_list_R (data x).

(** [tf.pow] for a positive exponent on a base that is not negative:
    [0 ** y = 0] and [x ** y = exp (y * ln x)] for [0 < x].  (A negative base
    with a fractional exponent is NaN in TensorFlow; the only base the
    notebook passes is a sum of two squares.) *)
Definition pow_scalar (x y : R) : R :=
  if Rle_dec x 0 then 0 else Rpower x y.

Definition tf_pow (x : tensor) (y : R) : tensor :=
  Tensor (shape x) (map (fun v => pow_scalar v y) (data x)).

(** ** Content loss *)

Definition content_loss (base_img combination_img : tensor) : R :=
  tf_reduce_sum (tf_square (tsub combination_img base_img)).

(** ** Indexing, slicing and reshaping *)

(** A Python slice [start:stop] (step 1); [None] is an omitted bound. *)
Record pyslice : Type := Slice { sl_start : option Z; sl_stop : option Z }.

(** Python's adjustment of a slice bound to an axis of length [dim]: a
    negative bound counts from the end, and the result is clamped. *)
Definition clamp_index (dim : nat) (k : Z) : nat :=
  Z.to_nat (Z.min (Z.max (if (k <? 0)%Z then k + Z.of_nat dim else k) 0)
                  (Z.of_nat dim)).

(** First index and length selected by a slice on an axis. *)
Definition slice_bounds (dim : nat) (s : pyslice) : nat * nat :=
  let start := match sl_start s with Some k => clamp_index dim k | None => 0%nat end in
  let stop := match sl_stop s with Some k => clamp_index dim k | None => dim end in
  (start, (stop - start)%nat).

(** [x[s0, s1, ...]] with one slice per axis. *)
Definition tf_slice (x : tensor) (sl : list pyslice) : tensor :=
  let bs := zip_with slice_bounds (shape x) sl in
  build (map snd bs) (fun idx => get x (zip_with Nat.add (map fst bs) idx)).

(** [x[n, :, :, ...]]: entry [n] along the first axis. *)
Definition index0 (x : tensor) (n : nat) : tensor :=
  let sh := tl (shape x) in
  Tensor sh (firstn (numel sh) (skipn (n * numel sh) (data x))).

(** [tf.concat(ts, axis=0)]. *)
Definition tf_concat0 (ts : list tensor) : tensor :=
  Tensor (fold_right Nat.add 0%nat (map (fun t => hd 0%nat (shape t)) ts)
            :: tl (shape (hd (Tensor [] []) ts)))
         (concat (map data ts)).

(** Position of axis [q] in a permutation. *)
Fixpoint index_of (q : nat) (perm : list nat) : nat :=
  match perm with
  | [] => 0%nat
  | p :: perm' => if (p =? q)%nat then 0%nat else S (index_of q perm')
  end.

(** [tf.transpose(x, perm)]: axis [k] of the result is axis [perm[k]] of [x]. *)
Definition tf_transpose (x : tensor) (perm : list nat) : tensor :=
  build (map (fun p => nth p (shape x) 0%nat) perm)
        (fun idx => get x (map (fun q => nth (index_of q perm) idx 0%nat)
                               (seq 0 (length perm)))).

(** [tf.reshape(x, sh)]: the buffer is kept; an entry [-1] of [sh] is
    inferred from the number of entries and the other dimensions. *)
Definition tf_reshape (x : tensor) (sh : list Z) : tensor :=
  let known := numel (map Z.to_nat (List.filter (fun d => (0 <=? d)%Z) sh)) in
  Tensor (map (fun d => if (d <? 0)%Z then (numel (shape x) / known)%nat
                        else Z.to_nat d) sh)
         (data x).

(** [tf.matmul(a, b)] on matrices. *)
Definition tf_matmul (a b : tensor) : tensor :=
  match shape a, shape b with
  | [n; k], [_; m] =>
      build [n; m] (fun idx =>
        match idx with
        | [i; j] => sum_list_R (map (fun l => get a [i; l] * get b [l; j]) (seq 0 k))
        | _ => 0
        end)
  | _, _ => Tensor [] []
  end.

(** ** Globals of the notebook *)

Definition img_height : nat := 400.

Definition style_layer_names : list string :=
  ["block1_conv1"; "block2_conv1"; "block3_conv1"; "block4_conv1";
   "block5_conv1"]%string.
Definition content_layer_name : string := "block5_conv2".
Definition total_variation_weight : R := 1 / 1000000.
Definition style_weight : R := 1 / 1000000.
Definition content_weight : R := 25 / 1000000000.
Definition iterations : nat := 4000.

(** ** Post-processing values *)

(** An image of bytes, as [np.ndarray.astype("uint8")] returns it. *)
Record uint8_image : Type := UInt8Image { u8_shape : list nat; u8_data : list Z }.

(** [img[:, :, k] += m] on a rank-3 array, as a value. *)
Definition add_to_channel (img : tensor) (k : nat) (m : R) : tensor :=
  build (shape img) (fun idx =>
    match idx with
    | [_; _; c] => if (c =? k)%nat then get img idx + m else get img idx
    | _ => get img idx
    end).

(** [img[:, :, ::-1]]. *)
Definition reverse_channels (img : tensor) : tensor :=
  build (shape img) (fun idx =>
    match idx with
    | [i; j; c] => get img [i; j; (nth 2 (shape img) 0 - 1 - c)%nat]
    | _ => get img idx
    end).

(** [np.clip(x, lo, hi)] is [minimum(maximum(x, lo), hi)]. *)
Definition np_clip (x : tensor) (lo hi : R) : tensor :=
  Tensor (shape x) (map (fun v => Rmin (Rmax v lo) hi) (data x)).

(** Conversion of one value to [uint8]: truncation toward zero, then the
    low eight bits. *)
Definition to_uint8 (v : R) : Z :=
  ((if Rle_dec 0 v then Int_part v else - Int_part (- v)) mod 256)%Z.

Definition astype_uint8 (x : tensor) : uint8_image :=
  UInt8Image (shape x) (map to_uint8 (data x)).

(** ** NumPy arrays in the Python heap

    A NumPy array is a view (a shape) on a buffer; [reshape] and basic slicing
    return views on the same buffer, so that an in-place update through a view
    is seen through every other view of the buffer. *)

(** Addresses of buffers. *)
Abbreviation loc := nat (only parsing).
Record ndarray : Type := NdArray { buf : loc; nd_shape : list nat }.
Abbreviation heap := (gmap nat (list R)) (only parsing).

(** The value of an array: what [tf.convert_to_tensor] copies out of it. *)
Definition read_array (h : heap) (a : ndarray) : option tensor :=
  match h !! buf a with
  | Some d => Some (Tensor (nd_shape a) d)
  | None => None
  end.

(** ** The learning-rate schedule

    [keras.optimizers.schedules.ExponentialDecay]: at step [n] the rate is
    [initial_learning_rate * decay_rate ^ p] with [p = n / decay_steps], and
    [p] is rounded down first when [staircase] is set.  The keyword
    [staircase] defaults to [False]. *)
Record ExponentialDecay : Type := MkExponentialDecay {
  initial_learning_rate : R;
  decay_steps : nat;
  decay_rate : R;
  staircase : bool
}.

Definition decayed_learning_rate (s : ExponentialDecay) (step : nat) : R :=
  let p := INR step / INR (decay_steps s) in
  let p := if staircase s then IZR (Int_part p) else p in
  initial_learning_rate s * Rpower (decay_rate s) p.

(** The schedule the notebook passes to [keras.optimizers.SGD]: no
    [staircase] keyword. *)
Definition lr_schedule : ExponentialDecay :=
  MkExponentialDecay 100 100 (96 / 100) false.

(** The rate of the claim that is compared with the code: constant on each
    window of 100 steps. *)
Definition staircase_rate (n : nat) : R := 100 * (96 / 100) ^ (n / 100)%nat.

(** [var.assign_sub(lr * grad)], the update of plain SGD. *)
Definition assign_sub_scaled (lr : R) (var grad : tensor) : tensor :=
  Tensor (shape var) (zip_with (fun v g => v - lr * g) (data var) (data grad)).

(** The decimal text of [i], as an f-string prints it. *)
Definition string_of_nat (i : nat) : string :=
  NilEmpty.string_of_uint (Nat.to_uint i).

Definition snapshot_name (i : nat) : string :=
  ("combination_image_at_iteration_" ++ string_of_nat i ++ ".png")%string.

(** The iterations [1 .. n] at which the loop saves a snapshot. *)
Definition snapshot_iterations (n : nat) : list nat :=
  List.filter (fun i => (i mod 100 =? 0)%nat) (seq 1 n).

Section Notebook.

(** Width of the generated picture; the notebook computes it once from the
    size of the base image file. *)
Variable img_width : nat.

(** The VGG19 feature extractor: from a batch of images to the dictionary of
    layer activations. *)
Variable feature_extractor : tensor -> string -> tensor.

(** [tape.gradient(loss, x)]: the gradient at [x] of a scalar function of
    [x]. *)
Variable tape_gradient : (tensor -> R) -> tensor -> tensor.

(** ** Style loss *)

Definition gram_matrix (x : tensor) : tensor :=
  let x := tf_transpose x [2; 0; 1]%nat in
  let features := tf_reshape x [Z.of_nat (nth 0 (shape x) 0%nat); (-1)%Z] in
  let gram := tf_matmul features (tf_transpose features [1; 0]%nat) in
  gram.

Definition style_loss (style_img combination_img : tensor) : R :=
  let S := gram_matrix style_img in
  let C := gram_matrix combination_img in
  let channels := 3 in
  let size := INR (img_height * img_width) in
  tf_reduce_sum (tf_square (tsub S C)) / (4 * (channels ^ 2) * (size ^ 2)).

(** The per-layer style loss as the specification words it: the normaliser
    uses the channels and the spatial size of the compared feature tensors. *)
Definition style_loss_spec (style_img combination_img : tensor) : R :=
  let channels := INR (nth 2 (shape style_img) 0%nat) in
  let size := INR (nth 0 (shape style_img) 0 * nth 1 (shape style_img) 0)%nat in
  tf_reduce_sum (tf_square (tsub (gram_matrix style_img)
                                 (gram_matrix combination_img)))
  / (4 * (channels ^ 2) * (size ^ 2)).

(** ** Total variation loss *)

Definition total_variation_loss (x : tensor) : R :=
  let all := Slice None None in
  let rows := Slice None (Some (Z.of_nat img_height - 1)%Z) in
  let cols := Slice None (Some (Z.of_nat img_width - 1)%Z) in
  let from1 := Slice (Some 1%Z) None in
  let a := tf_square
    (tsub (tf_slice x [all; rows; cols; all]) (tf_slice x [all; from1; cols; all])) in
  let b := tf_square
    (tsub (tf_slice x [all; rows; cols; all]) (tf_slice x [all; rows; from1; all])) in
  tf_reduce_sum (tf_pow (tadd a b) (125 / 100)).

(** ** The combined loss *)

Definition compute_loss (combination_image base_image style_reference_image : tensor)
  : R :=
  let input_tensor :=
    tf_concat0 [base_image; style_reference_image; combination_image] in
  let features := feature_extractor input_tensor in
  let loss := 0 in
  let layer_features := features content_layer_name in
  let base_image_features := index0 layer_features 0 in
  let combination_features := index0 layer_features 2 in
  let loss := loss + content_weight *
                content_loss base_image_features combination_features in
  let loss :=
    fold_left (fun loss layer_name =>
      let layer_features := features layer_name in
      let style_reference_features := index0 layer_features 1 in
      let combination_features := index0 layer_features 2 in
      let style_loss_value :=
        style_loss style_reference_features combination_features in
      loss + (style_weight / INR (length style_layer_names)) * style_loss_value)
      style_layer_names loss in
  let loss := loss + total_variation_weight * total_variation_loss combination_image in
  loss.

Definition compute_loss_and_grads
  (combination_image base_image style_reference_image : tensor) : R * tensor :=
  let loss := compute_loss combination_image base_image style_reference_image in
  let grads :=
    tape_gradient (fun x => compute_loss x base_image style_reference_image)
                  combination_image in
  (loss, grads).

(** ** Post-processing *)

(** The value [deprocess_image] leaves in the buffer of its argument: the
    three in-place additions, through the reshaped view. *)
Definition add_mean_pixel (d : list R) : tensor :=
  let img := Tensor [img_height; img_width; 3%nat] d in
  let img := add_to_channel img 0 (103939 / 1000) in
  let img := add_to_channel img 1 (116779 / 1000) in
  let img := add_to_channel img 2 (12368 / 100) in
  img.

(** [deprocess_image]: [reshape] fails on a wrong size; the additions write
    through the view into the buffer of the argument; the reversed view, the
    clipping and the conversion build the returned image. *)
Definition deprocess_image (h : heap) (img : ndarray) : option (heap * uint8_image) :=
  match h !! buf img with
  | Some d =>
      if decide (length d = (img_height * img_width * 3)%nat) then
        let view := add_mean_pixel d in
        let h := <[buf img := data view]> h in
        let view := reverse_channels view in
        Some (h, astype_uint8 (np_clip view 0 255))
      else None
  | None => None
  end.

(** ** The optimisation loop *)

(** The program state: the Python heap holding the NumPy arrays, the next
    free address, the TensorFlow variable (its storage is its own), the step
    counter of the optimiser, the files written and the lines printed. *)
Record state : Type := State {
  st_heap : heap;
  st_next : loc;
  combination_image : tensor;
  opt_iterations : nat;
  saved : list (string * uint8_image);
  printed : list (nat * R)
}.

(** The two arrays returned by [preprocess_image], at their addresses. *)
Definition base_image : ndarray := NdArray 0%nat [1; img_height; img_width; 3]%nat.
Definition style_reference_image : ndarray :=
  NdArray 1%nat [1; img_height; img_width; 3]%nat.

(** State at the head of the loop.  [base] and [style] are the buffers that
    [preprocess_image] fills for the two files; the variable starts from a
    third call of [preprocess_image] on the base image, a buffer of its own
    with the same content. *)
Definition initial_state (base style : list R) : state :=
  State (<[1%nat := style]> (<[0%nat := base]> ∅)) 2%nat
        (Tensor [1; img_height; img_width; 3]%nat base) 0%nat [] [].

(** [optimizer.apply_gradients([(grads, combination_image)])]: the rate is
    the schedule at the current step counter, which is then incremented. *)
Definition apply_gradients (st : state) (grads : tensor) : state :=
  let lr := decayed_learning_rate lr_schedule (opt_iterations st) in
  State (st_heap st) (st_next st)
        (assign_sub_scaled lr (combination_image st) grads)
        (S (opt_iterations st)) (saved st) (printed st).

(** The body of the loop at iteration [i]. *)
Definition loop_body (st : state) (i : nat) : option state :=
  match read_array (st_heap st) base_image,
        read_array (st_heap st) style_reference_image with
  | Some base, Some style =>
      let '(loss, grads) :=
        compute_loss_and_grads (combination_image st) base style in
      let st := apply_gradients st grads in
      if (i mod 100 =? 0)%nat then
        let out := printed st ++ [(i, loss)] in
        (* [combination_image.numpy()]: a copy in a fresh buffer *)
        let arr := NdArray (st_next st) (shape (combination_image st)) in
        let h := <[st_next st := data (combination_image st)]> (st_heap st) in
        match deprocess_image h arr with
        | Some (h, img) =>
            let fname := snapshot_name i in
            Some (State h (S (st_next st)) (combination_image st)
                        (opt_iterations st) (saved st ++ [(fname, img)]) out)
        | None => None
        end
      else Some st
  | _, _ => None
  end.

(** [for i in range(1, n + 1): ...] *)
Definition run_loop (n : nat) (st : state) : option state :=
  fold_left (fun acc i => match acc with Some st => loop_body st i | None => None end)
            (seq 1 n) (Some st).

(** The whole run of the last cell. *)
Definition run (base style : list R) : option state :=
  run_loop iterations (initial_state base style).

(** The generated image after [n] descent steps, as a value. *)
Fixpoint descend (base style : list R) (n : nat) : tensor :=
  match n with
  | O => Tensor [1; img_height; img_width; 3]%nat base
  | S n' =>
      let x := descend base style n' in
      assign_sub_scaled (decayed_learning_rate lr_schedule n') x
        (snd (compute_loss_and_grads x
                (Tensor [1; img_height; img_width; 3]%nat base)
                (Tensor [1; img_height; img_width; 3]%nat style)))
  end.

(** The picture saved for a value of the generated image. *)
Definition snapshot_of (x : tensor) : uint8_image :=
  astype_uint8 (np_clip (reverse_channels (add_mean_pixel (data x))) 0 255).

End Notebook.

(** ** Notions used by the statements *)

(** One term of the total variation loss, at batch [b], row [i], column [j]
    and channel [k]. *)
Definition tv_term (x : tensor) (idx : list nat) : R :=
  match idx with
  | [b; i; j; k] =>
      pow_scalar
        ((get x [b; i; j; k] - get x [b; S i; j; k]) *
         (get x [b; i; j; k] - get x [b; S i; j; k]) +
         (get x [b; i; j; k] - get x [b; i; S j; k]) *
         (get x [b; i; j; k] - get x [b; i; S j; k])) (125 / 100)
  | _ => 0
  end.

(** No pixel of the first [h - 1] rows and [w - 1] columns differs from the
    pixel below it or from the pixel to its right. *)
Definition smooth_block (x : tensor) (n h w c : nat) : Prop :=
  forall b i j k, (b < n)%nat -> (i < h - 1)%nat -> (j < w - 1)%nat -> (k < c)%nat ->
    get x [b; i; j; k] = get x [b; S i; j; k] /\
    get x [b; i; j; k] = get x [b; i; S j; k].

(** Entry [(i, j)] of [F * transpose F] for a matrix [F] with [n] columns. *)
Definition gram_entry (F : tensor) (n : nat) (idx : list nat) : R :=
  match idx with
  | [i; j] => sum_list_R (map (fun l => get F [i; l] * get F [j; l]) (seq 0 n))
  | _ => 0
  end.

(** The matrix of flattened feature maps that [gram_matrix] builds. *)
Definition features_of (x : tensor) : tensor :=
  let x := tf_transpose x [2; 0; 1]%nat in
  tf_reshape x [Z.of_nat (nth 0 (shape x) 0%nat); (-1)%Z].

(** The style losses of the layers of [style_layer_names], in order. *)
Definition layer_style_losses (img_width : nat)
  (feature_extractor : tensor -> string -> tensor)
  (combination_image base_image style_reference_image : tensor) : list R :=
  map (fun layer_name =>
         let layer_features :=
           feature_extractor
             (tf_concat0 [base_image; style_reference_image; combination_image])
             layer_name in
         style_loss img_width (index0 layer_features 1) (index0 layer_features 2))
      style_layer_names.

(** The content features compared by [compute_loss]. *)
Definition content_term (feature_extractor : tensor -> string -> tensor)
  (combination_image base_image style_reference_image : tensor) : R :=
  let layer_features :=
    feature_extractor
      (tf_concat0 [base_image; style_reference_image; combination_image])
      content_layer_name in
  content_loss (index0 layer_features 0) (index0 layer_features 2).

(** A picture whose only variation is its bottom-right pixel. *)
Definition corner_image : tensor :=
  build [1; img_height; 2; 3]%nat (fun idx =>
    match idx with
    | [_; i; j; _] => if ((i =? img_height - 1) && (j =? 1))%nat then 1 else 0
    | _ => 0
    end).

(** What holds of the program state after [n] iterations of the loop started
    on the buffers [base] and [style]. *)
Definition loop_invariant (img_width : nat)
  (feature_extractor : tensor -> string -> tensor)
  (tape_gradient : (tensor -> R) -> tensor -> tensor)
  (base style : list R) (n : nat) (st : state) : Prop :=
  let x := descend img_width feature_extractor tape_gradient base style in
  st_heap st !! buf (base_image img_width) = Some base /\
  st_heap st !! buf (style_reference_image img_width) = Some style /\
  (2 <= st_next st)%nat /\
  combination_image st = x n /\
  opt_iterations st = n /\
  saved st =
    map (fun i => (snapshot_name i, snapshot_of img_width (x i)))
        (snapshot_iterations n) /\
  printed st =
    map (fun i => (i, compute_loss img_width feature_extractor (x (i - 1)%nat)
                        (Tensor [1; img_height; img_width; 3]%nat base)
                        (Tensor [1; img_height; img_width; 3]%nat style)))
        (snapshot_iterations n).

(** * The float32 model

    The statements on signs and zeros of the losses depend on what rounding,
    overflow and NaN do, so they are settled on a second embedding of the
    three loss functions, computed as the notebook computes them: in IEEE
    binary32, round to nearest even ([SpecFloat] of the Standard Library at
    precision 24 and maximal exponent 128).  Python floats are binary64
    (precision 53, maximal exponent 1024) and are converted to binary32 when
    they meet a tensor. *)

Definition f32_add : spec_float -> spec_float -> spec_float := SFadd 24 128.
Definition f32_sub : spec_float -> spec_float -> spec_float := SFsub 24 128.
Definition f32_mul : spec_float -> spec_float -> spec_float := SFmul 24 128.
Definition f32_div : spec_float -> spec_float -> spec_float := SFdiv 24 128.
Definition f32_sqrt : spec_float -> spec_float := SFsqrt 24 128.
Definition f32_lt : spec_float -> spec_float -> bool := SFltb.
Definition f32_le : spec_float -> spec_float -> bool := SFleb.
Definition f32_zero : spec_float := S754_zero false.
Definition f32_inf : spec_float := S754_infinity false.

Definition f64_mul : spec_float -> spec_float -> spec_float := SFmul 53 1024.
Definition f64_div : spec_float -> spec_float -> spec_float := SFdiv 53 1024.

(** A Python integer converted to a Python float. *)
Definition f64_of_Z (m : Z) : spec_float := binary_normalize 53 1024 m 0 false.

(** A Python float converted to a float32 tensor value. *)
Definition f32_of_f64 (x : spec_float) : spec_float :=
  match x with
  | S754_finite s m e => binary_round 24 128 s m e
  | _ => x
  end.

(** The literals [1e-6] and [2.5e-8]: the binary64 numbers nearest to
    [1 / 10^6] and [25 / 10^9]. *)
Definition total_variation_weight64 : spec_float :=
  f64_div (f64_of_Z 1) (f64_of_Z 1000000).
Definition style_weight64 : spec_float :=
  f64_div (f64_of_Z 1) (f64_of_Z 1000000).
Definition content_weight64 : spec_float :=
  f64_div (f64_of_Z 25) (f64_of_Z 1000000000).

(** [1.25 = 5 * 2^-2], exact in binary32. *)
Definition f32_1_25 : spec_float := S754_finite false 10485760 (-23).

(** [2^-80] and [2^70], exact in binary32. *)
Definition f32_2_pow_m80 : spec_float := S754_finite false 8388608 (-103).
Definition f32_2_pow_70 : spec_float := S754_finite false 8388608 47.
Definition f32_one : spec_float := S754_finite false 8388608 (-23).

(** [2^-126], the smallest positive normal number of binary32. *)
Definition f32_min_normal : spec_float := S754_finite false 8388608 (-149).

(** Sign bit clear, or NaN: the value is not a negative number. *)
Definition sign_clear (x : spec_float) : Prop :=
  match x with
  | S754_zero s | S754_infinity s | S754_finite s _ _ => s = false
  | S754_nan => True
  end.

(** [+0], a positive number whose exponent is in the binary32 range, or
    [+inf]. *)
Definition f32_nonneg_value (x : spec_float) : Prop :=
  match x with
  | S754_zero s | S754_infinity s => s = false
  | S754_finite s _ e => s = false /\ (-149 <= e)%Z
  | S754_nan => False
  end.

(** A zero or a finite number: neither an infinity nor NaN. *)
Definition f32_finite (x : spec_float) : Prop :=
  match x with
  | S754_zero _ | S754_finite _ _ _ => True
  | _ => False
  end.

(** What rounding returns for the sign [s]: never NaN, the sign [s], an
    exponent in range. *)
Definition rounded_with_sign (s : bool) (x : spec_float) : Prop :=
  match x with
  | S754_zero s' | S754_infinity s' => s' = s
  | S754_finite s' _ e => s' = s /\ (-149 <= e)%Z
  | S754_nan => False
  end.

Definition is_zero (x : spec_float) : Prop :=
  match x with S754_zero _ => True | _ => False end.

(** ** float32 tensors *)

Record tensor32 : Type := Tensor32 { shape32 : list nat; data32 : list spec_float }.

Definition get32 (t : tensor32) (idx : list nat) : spec_float :=
  nth (offset (shape32 t) idx) (data32 t) f32_zero.

Fixpoint tabulate32 (sh : list nat) (f : list nat -> spec_float) : list spec_float :=
  match sh with
  | [] => [f []]
  | d :: sh' => flat_map (fun i => tabulate32 sh' (fun idx => f (i :: idx))) (seq 0 d)
  end.

Definition build32 (sh : list nat) (f : list nat -> spec_float) : tensor32 :=
  Tensor32 sh (tabulate32 sh f).

Definition tsub32 (a b : tensor32) : tensor32 :=
  Tensor32 (shape32 a) (zip_with f32_sub (data32 a) (data32 b)).

Definition tadd32 (a b : tensor32) : tensor32 :=
  Tensor32 (shape32 a) (zip_with f32_add (data32 a) (data32 b)).

Definition tf_square32 (x : tensor32) : tensor32 :=
  Tensor32 (shape32 x) (map (fun v => f32_mul v v) (data32 x)).

(** [tf.reduce_sum]: the entries added one after the other, from [+0].
    TensorFlow does not fix the order of the additions; [additions l s] says
    that [s] is the result of adding the entries of [l] in some order and
    grouping, and the facts on signs and zeros used below hold of every such
    result. *)
Definition tf_reduce_sum32 (x : tensor32) : spec_float :=
  fold_left f32_add (data32 x) f32_zero.

Inductive additions : list spec_float -> spec_float -> Prop :=
  | additions_nil : additions [] f32_zero
  | additions_one (v : spec_float) : additions [v] v
  | additions_app (l1 l2 : list spec_float) (s1 s2 : spec_float) :
      additions l1 s1 -> additions l2 s2 ->
      additions (l1 ++ l2) (f32_add s1 s2)
  | additions_perm (l l' : list spec_float) (s : spec_float) :
      Permutation l l' -> additions l s -> additions l' s.

Definition tf_slice32 (x : tensor32) (sl : list pyslice) : tensor32 :=
  let bs := zip_with slice_bounds (shape32 x) sl in
  build32 (map snd bs) (fun idx => get32 x (zip_with Nat.add (map fst bs) idx)).

Definition index0_32 (x : tensor32) (n : nat) : tensor32 :=
  let sh := tl (shape32 x) in
  Tensor32 sh (firstn (numel sh) (skipn (n * numel sh) (data32 x))).

Definition tf_concat0_32 (ts : list tensor32) : tensor32 :=
  Tensor32 (fold_right Nat.add 0%nat (map (fun t => hd 0%nat (shape32 t)) ts)
              :: tl (shape32 (hd (Tensor32 [] []) ts)))
           (concat (map data32 ts)).

Definition tf_transpose32 (x : tensor32) (perm : list nat) : tensor32 :=
  build32 (map (fun p => nth p (shape32 x) 0%nat) perm)
          (fun idx => get32 x (map (fun q => nth (index_of q perm) idx 0%nat)
                                   (seq 0 (length perm)))).

Definition tf_reshape32 (x : tensor32) (sh : list Z) : tensor32 :=
  let known := numel (map Z.to_nat (List.filter (fun d => (0 <=? d)%Z) sh)) in
  Tensor32 (map (fun d => if (d <? 0)%Z then (numel (shape32 x) / known)%nat
                          else Z.to_nat d) sh)
           (data32 x).

Definition tf_matmul32 (a b : tensor32) : tensor32 :=
  match shape32 a, shape32 b with
  | [n; k], [_; m] =>
      build32 [n; m] (fun idx =>
        match idx with
        | [i; j] =>
            fold_left f32_add
              (map (fun l => f32_mul (get32 a [i; l]) (get32 b [l; j])) (seq 0 k))
              f32_zero
        | _ => f32_zero
        end)
  | _, _ => Tensor32 [] []
  end.

(** ** The losses in float32 *)

Definition content_loss32 (base_img combination_img : tensor32) : spec_float :=
  tf_reduce_sum32 (tf_square32 (tsub32 combination_img base_img)).

(** The squared differences that [content_loss32] adds up. *)
Definition squared_differences32 (base_img combination_img : tensor32)
  : list spec_float :=
  zip_with (fun c x => f32_mul (f32_sub c x) (f32_sub c x))
           (data32 combination_img) (data32 base_img).

Definition gram_matrix32 (x : tensor32) : tensor32 :=
  let x := tf_transpose32 x [2; 0; 1]%nat in
  let features := tf_reshape32 x [Z.of_nat (nth 0 (shape32 x) 0%nat); (-1)%Z] in
  let gram := tf_matmul32 features (tf_transpose32 features [1; 0]%nat) in
  gram.

Section Notebook32.

Variable img_width : nat.

(** The VGG19 feature extractor on float32 tensors. *)
Variable feature_extractor32 : tensor32 -> string -> tensor32.

(** [tf.pow] on float32 values. *)
Variable pow32 : spec_float -> spec_float -> spec_float.

Definition tf_pow32 (x : tensor32) (y : spec_float) : tensor32 :=
  Tensor32 (shape32 x) (map (fun v => pow32 v y) (data32 x)).

(** [4.0 * (channels ** 2) * (size ** 2)], a Python float. *)
Definition style_normaliser64 : spec_float :=
  let channels := 3%Z in
  let size := Z.of_nat (img_height * img_width) in
  f64_mul (f64_mul (f64_of_Z 4) (f64_of_Z (channels ^ 2))) (f64_of_Z (size ^ 2)).

Definition style_loss32 (style_img combination_img : tensor32) : spec_float :=
  let S := gram_matrix32 style_img in
  let C := gram_matrix32 combination_img in
  f32_div (tf_reduce_sum32 (tf_square32 (tsub32 S C)))
          (f32_of_f64 style_normaliser64).

Definition total_variation_loss32 (x : tensor32) : spec_float :=
  let all := Slice None None in
  let rows := Slice None (Some (Z.of_nat img_height - 1)%Z) in
  let cols := Slice None (Some (Z.of_nat img_width - 1)%Z) in
  let from1 := Slice (Some 1%Z) None in
  let a := tf_square32
    (tsub32 (tf_slice32 x [all; rows; cols; all])
            (tf_slice32 x [all; from1; cols; all])) in
  let b := tf_square32
    (tsub32 (tf_slice32 x [all; rows; cols; all])
            (tf_slice32 x [all; rows; from1; all])) in
  tf_reduce_sum32 (tf_pow32 (tadd32 a b) f32_1_25).

Definition compute_loss32
  (combination_image base_image style_reference_image : tensor32) : spec_float :=
  let input_tensor :=
    tf_concat0_32 [base_image; style_reference_image; combination_image] in
  let features := feature_extractor32 input_tensor in
  let loss := f32_zero in
  let layer_features := features content_layer_name in
  let base_image_features := index0_32 layer_features 0 in
  let combination_features := index0_32 layer_features 2 in
  let loss :=
    f32_add loss
      (f32_mul (f32_of_f64 content_weight64)
               (content_loss32 base_image_features combination_features)) in
  let loss :=
    fold_left (fun loss layer_name =>
      let layer_features := features layer_name in
      let style_reference_features := index0_32 layer_features 1 in
      let combination_features := index0_32 layer_features 2 in
      let style_loss_value :=
        style_loss32 style_reference_features combination_features in
      f32_add loss
        (f32_mul
           (f32_of_f64
              (f64_div style_weight64
                       (f64_of_Z (Z.of_nat (length style_layer_names)))))
           style_loss_value))
      style_layer_names loss in
  let loss :=
    f32_add loss
      (f32_mul (f32_of_f64 total_variation_weight64)
               (total_variation_loss32 combination_image)) in
  loss.

End Notebook32.

(** One term of the float32 total variation loss. *)
Definition tv_term32 (pow32 : spec_float -> spec_float -> spec_float)
  (x : tensor32) (idx : list nat) : spec_float :=
  match idx with
  | [b; i; j; k] =>
      pow32
        (f32_add
           (f32_mul (f32_sub (get32 x [b; i; j; k]) (get32 x [b; S i; j; k]))
                    (f32_sub (get32 x [b; i; j; k]) (get32 x [b; S i; j; k])))
           (f32_mul (f32_sub (get32 x [b; i; j; k]) (get32 x [b; i; S j; k]))
                    (f32_sub (get32 x [b; i; j; k]) (get32 x [b; i; S j; k]))))
        f32_1_25
  | _ => f32_zero
  end.

(** What the total variation loss raises to the power 1.25 at a pixel: the
    squared difference to the pixel below plus the squared difference to
    the pixel to the right. *)
Definition squared_steps32 (x : tensor32) (idx : list nat) : spec_float :=
  match idx with
  | [b; i; j; k] =>
      f32_add
        (f32_mul (f32_sub (get32 x [b; i; j; k]) (get32 x [b; S i; j; k]))
                 (f32_sub (get32 x [b; i; j; k]) (get32 x [b; S i; j; k])))
        (f32_mul (f32_sub (get32 x [b; i; j; k]) (get32 x [b; i; S j; k]))
                 (f32_sub (get32 x [b; i; j; k]) (get32 x [b; i; S j; k])))
  | _ => f32_zero
  end.

(** No pixel of the first [h - 1] rows and [w - 1] columns differs from the
    pixel below it or from the pixel to its right, and these pixels are
    finite numbers. *)
Definition smooth_block32 (x : tensor32) (n h w c : nat) : Prop :=
  forall b i j k, (b < n)%nat -> (i < h - 1)%nat -> (j < w - 1)%nat -> (k < c)%nat ->
    f32_finite (get32 x [b; i; j; k]) /\
    get32 x [b; i; j; k] = get32 x [b; S i; j; k] /\
    get32 x [b; i; j; k] = get32 x [b; i; S j; k].

(** A flat-colour picture of finite values. *)
Definition constant_image32 (x : tensor32) (n h w c : nat) : Prop :=
  exists colour : nat -> nat -> spec_float,
  forall b i j k, (b < n)%nat -> (i < h)%nat -> (j < w)%nat -> (k < c)%nat ->
    get32 x [b; i; j; k] = colour b k /\ f32_finite (colour b k).

(** [x ** 1.25] computed as [x * sqrt (sqrt x)] in float32: one function
    that [pow32] can be. *)
Definition pow32_by_roots (x y : spec_float) : spec_float :=
  f32_mul x (f32_sqrt (f32_sqrt x)).

(** A float32 picture whose only variation is its bottom-right pixel. *)
Definition corner_image32 : tensor32 :=
  build32 [1; img_height; 2; 3]%nat (fun idx =>
    match idx with
    | [_; i; j; _] =>
        if ((i =? img_height - 1) && (j =? 1))%nat then f32_one else f32_zero
    | _ => f32_zero
    end).

(** A float32 picture whose top-left pixel is [2^-80] and all others 0. *)
Definition faint_image32 : tensor32 :=
  build32 [1; img_height; 2; 3]%nat (fun idx =>
    match idx with
    | [_; i; j; _] =>
        if ((i =? 0) && (j =? 0))%nat then f32_2_pow_m80 else f32_zero
    | _ => f32_zero
    end).

(** A float32 picture with a column of zeros and a column of ones. *)
Definition stripes_image32 : tensor32 :=
  build32 [1; img_height; 2; 3]%nat (fun idx =>
    match idx with
    | [_; _; j; _] => if (j =? 1)%nat then f32_one else f32_zero
    | _ => f32_zero
    end).

(** * Lemmas on sums and buffers *)

Lemma Rsq_nonneg (x : R) : 0 <= x * x.
Proof. nra. Qed.

Lemma sum_list_R_nonneg (l : list R) :
  Forall (fun v => 0 <= v) l -> 0 <= sum_list_R l.
Proof.
  induction 1 as [|v l Hv _ IH]; simpl; lra.
Qed.

Lemma sum_list_R_zero_iff (l : list R) :
  Forall (fun v => 0 <= v) l ->
  sum_list_R l = 0 <-> Forall (fun v => v = 0) l.
Proof.
  induction 1 as [|v l Hv Hl IH]; simpl.
  - split; [constructor | reflexivity].
  - pose proof (sum_list_R_nonneg l Hl) as Hs. split.
    + intros H. constructor; [lra|]. apply IH. lra.
    + intros H. inversion H as [|? ? H0 Hr]; subst.
      apply IH in Hr. lra.
Qed.

Lemma sum_list_R_app (l1 l2 : list R) :
  sum_list_R (l1 ++ l2) = sum_list_R l1 + sum_list_R l2.
Proof.
  induction l1 as [|v l1 IH]; simpl; [lra | rewrite IH; lra].
Qed.

Lemma map_zip_with_R (f : R -> R) (g : R -> R -> R) (l1 l2 : list R) :
  map f (zip_with g l1 l2) = zip_with (fun a b => f (g a b)) l1 l2.
Proof.
  revert l2; induction l1 as [|a l1 IH]; intros [|b l2]; simpl; try reflexivity.
  now rewrite IH.
Qed.

Lemma sq_diff_sym (l1 l2 : list R) :
  zip_with (fun a b => (a - b) * (a - b)) l1 l2 =
  zip_with (fun a b => (a - b) * (a - b)) l2 l1.
Proof.
  revert l2; induction l1 as [|a l1 IH]; intros [|b l2]; simpl; try reflexivity.
  rewrite IH. f_equal. ring.
Qed.

(** * Lemmas on tabulated buffers *)

Lemma in_range_cons (d : nat) (sh : list nat) (i : nat) (idx : list nat) :
  in_range (d :: sh) (i :: idx) <-> (i < d)%nat /\ in_range sh idx.
Proof.
  unfold in_range. split.
  - intros H. inversion H; subst. split; assumption.
  - intros [H1 H2]. constructor; assumption.
Qed.

Lemma in_range_nil_inv (idx : list nat) : in_range [] idx -> idx = [].
Proof. unfold in_range. intros H. inversion H. reflexivity. Qed.

Lemma in_range_cons_inv (d : nat) (sh idx : list nat) :
  in_range (d :: sh) idx ->
  exists i idx', idx = i :: idx' /\ (i < d)%nat /\ in_range sh idx'.
Proof.
  unfold in_range. intros H. inversion H; subst. eauto.
Qed.

Lemma length_tabulate (sh : list nat) (f : list nat -> R) :
  length (tabulate sh f) = numel sh.
Proof.
  revert f. induction sh as [|d sh IH]; intros f; simpl; [reflexivity|].
  generalize 0%nat at 1. induction d as [|d IHd]; intros a; simpl; [reflexivity|].
  rewrite length_app, IH, IHd. reflexivity.
Qed.

Lemma nth_flat_map_block (g : nat -> list R) (m : nat) (a d i r : nat) :
  (forall k, length (g k) = m) -> (i < d)%nat -> (r < m)%nat ->
  nth (i * m + r) (flat_map g (seq a d)) 0 = nth r (g (a + i)%nat) 0.
Proof.
  intros Hg. revert a i. induction d as [|d IH]; intros a i Hi Hr; [lia|].
  simpl. destruct i as [|i].
  - rewrite app_nth1 by (rewrite Hg; lia). simpl. now rewrite Nat.add_0_r.
  - rewrite app_nth2 by (rewrite Hg; nia).
    rewrite Hg. replace (S i * m + r - m)%nat with (i * m + r)%nat by nia.
    rewrite IH by lia. f_equal. f_equal. lia.
Qed.

Lemma offset_lt (sh idx : list nat) :
  in_range sh idx -> (offset sh idx < numel sh)%nat.
Proof.
  revert idx. induction sh as [|d sh IH]; intros idx H.
  - apply in_range_nil_inv in H. subst. simpl. lia.
  - apply in_range_cons_inv in H. destruct H as (i & idx' & -> & Hi & H).
    specialize (IH _ H). simpl. nia.
Qed.

Lemma nth_tabulate (sh idx : list nat) (f : list nat -> R) :
  in_range sh idx -> nth (offset sh idx) (tabulate sh f) 0 = f idx.
Proof.
  revert idx f. induction sh as [|d sh IH]; intros idx f H.
  - apply in_range_nil_inv in H. subst. reflexivity.
  - apply in_range_cons_inv in H. destruct H as (i & idx' & -> & Hi & H).
    simpl. rewrite (nth_flat_map_block _ (numel sh)).
    + simpl. apply (IH idx' (fun idx => f (i :: idx))). exact H.
    + intros k. apply length_tabulate.
    + exact Hi.
    + apply offset_lt. exact H.
Qed.

Lemma get_build (sh idx : list nat) (f : list nat -> R) :
  in_range sh idx -> get (build sh f) idx = f idx.
Proof. intros H. unfold get, build. simpl. now apply nth_tabulate. Qed.

Lemma well_formed_build (sh : list nat) (f : list nat -> R) :
  well_formed (build sh f).
Proof. unfold well_formed, build. simpl. apply length_tabulate. Qed.

Lemma flat_map_ext_seq (g1 g2 : nat -> list R) (a d : nat) :
  (forall i, (a <= i < a + d)%nat -> g1 i = g2 i) ->
  flat_map g1 (seq a d) = flat_map g2 (seq a d).
Proof.
  revert a. induction d as [|d IH]; intros a H; simpl; [reflexivity|].
  rewrite H by lia. f_equal. apply IH. intros i Hi. apply H. lia.
Qed.

Lemma tabulate_ext (sh : list nat) (f g : list nat -> R) :
  (forall idx, in_range sh idx -> f idx = g idx) ->
  tabulate sh f = tabulate sh g.
Proof.
  revert f g. induction sh as [|d sh IH]; intros f g H; simpl.
  - rewrite H; [reflexivity | constructor].
  - apply flat_map_ext_seq. intros i Hi. apply IH. intros idx Hidx.
    apply H. apply in_range_cons. split; [lia | exact Hidx].
Qed.

Lemma map_flat_map_R (h : R -> R) (g : nat -> list R) (l : list nat) :
  map h (flat_map g l) = flat_map (fun i => map h (g i)) l.
Proof.
  induction l as [|x l IH]; simpl; [reflexivity|].
  now rewrite map_app, IH.
Qed.

Lemma map_tabulate (h : R -> R) (sh : list nat) (f : list nat -> R) :
  map h (tabulate sh f) = tabulate sh (fun idx => h (f idx)).
Proof.
  revert f. induction sh as [|d sh IH]; intros f; simpl; [reflexivity|].
  rewrite map_flat_map_R. apply flat_map_ext_seq. intros i _. apply IH.
Qed.

Lemma zip_with_app_R (h : R -> R -> R) (l1 l2 k1 k2 : list R) :
  length l1 = length k1 ->
  zip_with h (l1 ++ l2) (k1 ++ k2) = zip_with h l1 k1 ++ zip_with h l2 k2.
Proof.
  revert k1. induction l1 as [|x l1 IH]; intros [|y k1] Hl; simpl in *;
    try discriminate; [reflexivity|].
  f_equal. apply IH. lia.
Qed.

Lemma zip_with_tabulate (h : R -> R -> R) (sh : list nat) (f g : list nat -> R) :
  zip_with h (tabulate sh f) (tabulate sh g) =
  tabulate sh (fun idx => h (f idx) (g idx)).
Proof.
  revert f g. induction sh as [|d sh IH]; intros f g; simpl; [reflexivity|].
  generalize 0%nat. induction d as [|d IHd]; intros a; simpl; [reflexivity|].
  rewrite zip_with_app_R by (now rewrite !length_tabulate).
  now rewrite IH, IHd.
Qed.

Lemma Forall_tabulate (P : R -> Prop) (sh : list nat) (f : list nat -> R) :
  Forall P (tabulate sh f) <-> (forall idx, in_range sh idx -> P (f idx)).
Proof.
  revert f. induction sh as [|d sh IH]; intros f; simpl.
  - split.
    + intros H idx Hidx. apply in_range_nil_inv in Hidx. subst.
      now inversion H.
    + intros H. constructor; [apply H; constructor | constructor].
  - rewrite Forall_flat_map, List.Forall_forall. split.
    + intros H idx Hidx. apply in_range_cons_inv in Hidx.
      destruct Hidx as (i & idx' & -> & Hi & Hidx).
      specialize (H i). rewrite IH in H. apply H; [|exact Hidx].
      apply in_seq. lia.
    + intros H i Hi. apply in_seq in Hi. apply IH. intros idx Hidx.
      apply H. apply in_range_cons. split; [lia | exact Hidx].
Qed.

(** * Lemmas on slices and the total variation loss *)

Lemma clamp_index_pred (dim : nat) :
  clamp_index dim (Z.of_nat dim - 1) = (dim - 1)%nat.
Proof.
  unfold clamp_index. destruct (Z.ltb_spec (Z.of_nat dim - 1) 0); cbv iota; lia.
Qed.

Lemma clamp_index_one (dim : nat) : clamp_index dim 1 = Nat.min 1 dim.
Proof. unfold clamp_index. cbv iota. change (1 <? 0)%Z with false. cbv iota. lia. Qed.

Lemma in_range_4 (d0 d1 d2 d3 : nat) (idx : list nat) :
  in_range [d0; d1; d2; d3] idx ->
  exists b i j k, idx = [b; i; j; k] /\
    (b < d0)%nat /\ (i < d1)%nat /\ (j < d2)%nat /\ (k < d3)%nat.
Proof.
  intros H.
  apply in_range_cons_inv in H. destruct H as (b & idx1 & -> & Hb & H).
  apply in_range_cons_inv in H. destruct H as (i & idx2 & -> & Hi & H).
  apply in_range_cons_inv in H. destruct H as (j & idx3 & -> & Hj & H).
  apply in_range_cons_inv in H. destruct H as (k & idx4 & -> & Hk & H).
  apply in_range_nil_inv in H. subst. exists b, i, j, k. auto.
Qed.

Lemma total_variation_loss_unfold (img_width : nat) (x : tensor) (n c : nat) :
  shape x = [n; img_height; img_width; c] ->
  total_variation_loss img_width x =
  sum_list_R
    (tabulate [n; (img_height - 1)%nat; (img_width - 1)%nat; c] (tv_term x)).
Proof.
  unfold total_variation_loss. generalize img_height as h. intros h Hs.
  unfold tf_reduce_sum, tf_pow, tadd, tf_square, tsub, tf_slice, build.
  rewrite Hs. cbn [zip_with slice_bounds sl_start sl_stop map fst snd data shape].
  rewrite !clamp_index_pred, !clamp_index_one, !Nat.sub_0_r.
  replace (h - Nat.min 1 h)%nat with (h - 1)%nat by lia.
  replace (img_width - Nat.min 1 img_width)%nat with (img_width - 1)%nat by lia.
  rewrite !zip_with_tabulate, !map_tabulate, zip_with_tabulate, map_tabulate.
  f_equal. apply tabulate_ext. intros idx Hidx.
  apply in_range_4 in Hidx. destruct Hidx as (b & i & j & k & -> & Hb & Hi & Hj & Hk).
  unfold tv_term. cbn [zip_with Nat.add].
  replace (Nat.min 1 h + i)%nat with (S i) by lia.
  replace (Nat.min 1 img_width + j)%nat with (S j) by lia.
  reflexivity.
Qed.

Lemma pow_scalar_nonneg (v y : R) : 0 <= pow_scalar v y.
Proof.
  unfold pow_scalar. destruct (Rle_dec v 0); [lra|].
  unfold Rpower. left. apply exp_pos.
Qed.

Lemma pow_scalar_zero_iff (v y : R) : pow_scalar v y = 0 <-> v <= 0.
Proof.
  unfold pow_scalar. destruct (Rle_dec v 0) as [H|H]; split; intros H'; try lra.
  unfold Rpower in H'. pose proof (exp_pos (y * ln v)). lra.
Qed.

Lemma sum_sq_zero_iff (u v : R) : u * u + v * v <= 0 <-> u = 0 /\ v = 0.
Proof.
  pose proof (Rsq_nonneg u). pose proof (Rsq_nonneg v). split.
  - intros H1. assert (Hu : u * u = 0) by lra. assert (Hv : v * v = 0) by lra.
    split; [destruct (Rmult_integral _ _ Hu) | destruct (Rmult_integral _ _ Hv)];
      assumption.
  - intros [-> ->]. lra.
Qed.

Lemma tv_term_nonneg (x : tensor) (idx : list nat) : 0 <= tv_term x idx.
Proof.
  unfold tv_term.
  repeat (destruct idx as [|? idx]; try lra). apply pow_scalar_nonneg.
Qed.

Lemma total_variation_loss_zero_of_smooth (img_width : nat) (x : tensor)
  (n c : nat) :
  shape x = [n; img_height; img_width; c] ->
  smooth_block x n img_height img_width c ->
  total_variation_loss img_width x = 0.
Proof.
  intros Hs H. rewrite (total_variation_loss_unfold _ _ _ _ Hs).
  apply sum_list_R_zero_iff;
    [apply Forall_tabulate; intros idx _; apply tv_term_nonneg|].
  apply Forall_tabulate. intros idx Hidx. apply in_range_4 in Hidx.
  destruct Hidx as (b & i & j & k & -> & Hb & Hi & Hj & Hk).
  simpl. rewrite pow_scalar_zero_iff, sum_sq_zero_iff.
  destruct (H b i j k Hb Hi Hj Hk) as [H1 H2]. lra.
Qed.

(** * Lemmas on the Gram matrix *)

Lemma in_range_2 (d0 d1 : nat) (idx : list nat) :
  in_range [d0; d1] idx ->
  exists i j, idx = [i; j] /\ (i < d0)%nat /\ (j < d1)%nat.
Proof.
  intros H.
  apply in_range_cons_inv in H. destruct H as (i & idx1 & -> & Hi & H).
  apply in_range_cons_inv in H. destruct H as (j & idx2 & -> & Hj & H).
  apply in_range_nil_inv in H. subst. exists i, j. auto.
Qed.

Lemma in_range_2_intro (d0 d1 i j : nat) :
  (i < d0)%nat -> (j < d1)%nat -> in_range [d0; d1] [i; j].
Proof. intros Hi Hj. repeat constructor; assumption. Qed.

Lemma map_ext_seq (f g : nat -> R) (a n : nat) :
  (forall l, (a <= l < a + n)%nat -> f l = g l) -> map f (seq a n) = map g (seq a n).
Proof.
  intros H. apply map_ext_in. intros l Hl. apply H. apply in_seq in Hl. lia.
Qed.

Lemma tf_transpose_matrix (F : tensor) (r n : nat) :
  shape F = [r; n] ->
  tf_transpose F [1; 0]%nat = build [n; r] (fun idx =>
    match idx with [l; i] => get F [i; l] | _ => 0 end).
Proof.
  intros Hs. unfold tf_transpose. rewrite Hs. reflexivity.
Qed.

Lemma gram_of_features (F : tensor) (r n : nat) :
  shape F = [r; n] ->
  tf_matmul F (tf_transpose F [1; 0]%nat) = build [r; r] (gram_entry F n).
Proof.
  intros Hs. rewrite (tf_transpose_matrix F r n Hs).
  unfold tf_matmul. rewrite Hs. cbn [shape build].
  unfold build. f_equal. apply tabulate_ext. intros idx Hidx.
  apply in_range_2 in Hidx. destruct Hidx as (i & j & -> & Hi & Hj).
  unfold gram_entry. f_equal. apply map_ext_seq. intros l Hl. f_equal.
  change (Tensor [n; r] ?d) with (build [n; r]
    (fun idx => match idx with [l; i] => get F [i; l] | _ => 0 end)).
  rewrite get_build by (apply in_range_2_intro; lia). reflexivity.
Qed.

Lemma gram_entry_sym (F : tensor) (n i j : nat) :
  gram_entry F n [i; j] = gram_entry F n [j; i].
Proof.
  unfold gram_entry. f_equal. apply map_ext. intros l. ring.
Qed.

Lemma gram_matrix_features (x : tensor) :
  gram_matrix x = tf_matmul (features_of x) (tf_transpose (features_of x) [1; 0]%nat).
Proof. reflexivity. Qed.

Lemma shape_features_of (x : tensor) (h w c : nat) :
  shape x = [h; w; c] ->
  shape (features_of x) = [c; (numel [c; h; w] / numel [c])%nat].
Proof.
  intros Hs. unfold features_of.
  set (x' := tf_transpose x [2; 0; 1]%nat).
  assert (Hx' : shape x' = [c; h; w])
    by (unfold x', tf_transpose; rewrite Hs; reflexivity).
  unfold tf_reshape. rewrite Hx'. cbn [nth map List.filter shape].
  destruct (Z.leb_spec 0 (Z.of_nat c)) as [_|Hc]; [|lia].
  change (0 <=? -1)%Z with false. change (-1 <? 0)%Z with true.
  cbn [List.filter map].
  destruct (Z.ltb_spec (Z.of_nat c) 0) as [Hc|_]; [lia|].
  now rewrite Nat2Z.id.
Qed.

Lemma gram_matrix_build (x : tensor) (h w c : nat) :
  shape x = [h; w; c] ->
  gram_matrix x =
  build [c; c] (gram_entry (features_of x) (numel [c; h; w] / numel [c])).
Proof.
  intros Hs. rewrite gram_matrix_features.
  apply gram_of_features. now apply shape_features_of.
Qed.

(** * Lemmas on the style loss and the combined loss *)

Lemma sum_sq_diff_sym (a b : tensor) :
  tf_reduce_sum (tf_square (tsub a b)) = tf_reduce_sum (tf_square (tsub b a)).
Proof.
  unfold tf_reduce_sum, tf_square, tsub; simpl. rewrite !map_zip_with_R.
  now rewrite sq_diff_sym.
Qed.

Lemma INR_img_height : INR img_height = 400.
Proof.
  rewrite INR_IZR_INZ. reflexivity.
Qed.

Lemma img_height_pos : (0 < img_height)%nat.
Proof. unfold img_height. lia. Qed.

Lemma fold_left_add (A : Type) (g : A -> R) (l : list A) (a : R) :
  fold_left (fun acc x => acc + g x) l a = a + sum_list_R (map g l).
Proof.
  revert a. induction l as [|x l IH]; intros a; simpl; [lra|].
  rewrite IH. lra.
Qed.

Lemma compute_loss_unfold (img_width : nat)
  (feature_extractor : tensor -> string -> tensor) (x base style : tensor) :
  compute_loss img_width feature_extractor x base style =
  content_weight * content_term feature_extractor x base style +
  style_weight *
    (sum_list_R (layer_style_losses img_width feature_extractor x base style) / 5) +
  total_variation_weight * total_variation_loss img_width x.
Proof.
  unfold compute_loss, content_term, layer_style_losses.
  rewrite (fold_left_add _ (fun layer_name =>
    style_weight / INR (length style_layer_names) *
    style_loss img_width
      (index0 (feature_extractor (tf_concat0 [base; style; x]) layer_name) 1)
      (index0 (feature_extractor (tf_concat0 [base; style; x]) layer_name) 2))).
  replace (INR (length style_layer_names)) with 5 by (simpl; lra).
  unfold style_layer_names. cbn [map sum_list_R fold_right]. field.
Qed.

(** * Lemmas on the learning-rate schedule *)

Lemma lr_schedule_rate (n : nat) :
  decayed_learning_rate lr_schedule n = 100 * Rpower (96 / 100) (INR n / 100).
Proof.
  unfold decayed_learning_rate, lr_schedule; cbn [staircase decay_steps
    decay_rate initial_learning_rate].
  now rewrite (INR_IZR_INZ 100).
Qed.

Lemma Rpower_base_lt_1_decreasing (a x y : R) :
  0 < a < 1 -> x < y -> Rpower a y < Rpower a x.
Proof.
  intros [Ha0 Ha1] Hxy. unfold Rpower. apply exp_increasing.
  assert (Hln : ln a < 0).
  { rewrite <- ln_1. apply ln_increasing; assumption. }
  nra.
Qed.

(** * Lemmas on the conversion to bytes *)

Lemma clip_bounds (v : R) : 0 <= Rmin (Rmax v 0) 255 <= 255.
Proof.
  unfold Rmin, Rmax.
  destruct (Rle_dec v 0); destruct (Rle_dec _ 255); lra.
Qed.

Lemma Int_part_bounds (v : R) :
  0 <= v <= 255 -> (0 <= Int_part v <= 255)%Z.
Proof.
  intros [H0 H255]. destruct (base_Int_part v) as [Hl Hu].
  split.
  - assert (-1 < IZR (Int_part v)) by lra.
    apply lt_IZR in H. lia.
  - apply le_IZR. lra.
Qed.

Lemma to_uint8_clip (v : R) :
  to_uint8 (Rmin (Rmax v 0) 255) = Int_part (Rmin (Rmax v 0) 255).
Proof.
  pose proof (clip_bounds v) as Hb. unfold to_uint8.
  destruct (Rle_dec 0 _) as [_|Hn]; [|lra].
  apply Z.mod_small. pose proof (Int_part_bounds _ Hb). lia.
Qed.

Lemma to_uint8_range (v : R) : (0 <= to_uint8 v <= 255)%Z.
Proof.
  unfold to_uint8.
  match goal with |- (0 <= ?z mod 256 <= 255)%Z =>
    pose proof (Z.mod_pos_bound z 256) end. lia.
Qed.

Lemma shape_reverse_add_mean (img_width : nat) (d : list R) :
  shape (reverse_channels (add_mean_pixel img_width d)) =
  [img_height; img_width; 3%nat].
Proof. reflexivity. Qed.

Lemma length_reverse_add_mean (img_width : nat) (d : list R) :
  length (data (reverse_channels (add_mean_pixel img_width d))) =
  (img_height * img_width * 3)%nat.
Proof.
  unfold reverse_channels, build. cbn [data]. rewrite length_tabulate.
  unfold add_mean_pixel, add_to_channel, build. cbn [shape numel fold_right]. lia.
Qed.

Lemma length_add_mean (img_width : nat) (d : list R) :
  length (data (add_mean_pixel img_width d)) = (img_height * img_width * 3)%nat.
Proof.
  unfold add_mean_pixel, add_to_channel, build. cbn [data shape].
  rewrite length_tabulate. cbn [numel fold_right]. lia.
Qed.

Lemma deprocess_image_ok (img_width : nat) (h : heap) (img : ndarray) (d : list R) :
  h !! buf img = Some d ->
  length d = (img_height * img_width * 3)%nat ->
  deprocess_image img_width h img =
  Some (<[buf img := data (add_mean_pixel img_width d)]> h,
        snapshot_of img_width (Tensor (nd_shape img) d)).
Proof.
  intros Hl Hlen. unfold deprocess_image. rewrite Hl.
  destruct (decide (length d = (img_height * img_width * 3)%nat)) as [_|Hn];
    [reflexivity | contradiction].
Qed.

(** * Lemmas on the optimisation loop *)

Lemma run_loop_S (img_width : nat)
  (feature_extractor : tensor -> string -> tensor)
  (tape_gradient : (tensor -> R) -> tensor -> tensor) (n : nat) (st : state) :
  run_loop img_width feature_extractor tape_gradient (S n) st =
  match run_loop img_width feature_extractor tape_gradient n st with
  | Some st' => loop_body img_width feature_extractor tape_gradient st' (S n)
  | None => None
  end.
Proof.
  unfold run_loop. rewrite seq_S, fold_left_app. reflexivity.
Qed.

Lemma snapshot_iterations_S (n : nat) :
  snapshot_iterations (S n) =
  if (S n mod 100 =? 0)%nat then snapshot_iterations n ++ [S n]
  else snapshot_iterations n.
Proof.
  unfold snapshot_iterations. rewrite seq_S, List.filter_app.
  cbn [List.filter Nat.add].
  destruct (S n mod 100 =? 0)%nat; [reflexivity | apply app_nil_r].
Qed.

Lemma string_append_assoc_cancel_l (p a b : string) :
  (p ++ a)%string = (p ++ b)%string -> a = b.
Proof.
  induction p as [|ch p IH]; intros H; [exact H|].
  change (String ch (p ++ a) = String ch (p ++ b))%string in H.
  injection H as H. now apply IH.
Qed.

Lemma string_length_append (a b : string) :
  String.length (a ++ b) = (String.length a + String.length b)%nat.
Proof.
  induction a as [|ch a IH]; [reflexivity|].
  change (S (String.length (a ++ b)) = S (String.length a + String.length b)).
  now rewrite IH.
Qed.

Lemma string_append_cancel_r (s a b : string) :
  (a ++ s)%string = (b ++ s)%string -> a = b.
Proof.
  revert b. induction a as [|ch a IH]; intros [|ch' b] H.
  - reflexivity.
  - apply (f_equal String.length) in H.
    rewrite !string_length_append in H. simpl String.length in H. lia.
  - apply (f_equal String.length) in H.
    rewrite !string_length_append in H. simpl String.length in H. lia.
  - change (String ch (a ++ s) = String ch' (b ++ s))%string in H.
    injection H as -> H. f_equal. now apply IH.
Qed.

Lemma string_of_nat_inj (i j : nat) : string_of_nat i = string_of_nat j -> i = j.
Proof.
  unfold string_of_nat. intros H.
  apply (f_equal NilEmpty.uint_of_string) in H. rewrite !NilEmpty.usu in H.
  injection H as H. now apply Unsigned.to_uint_inj.
Qed.

Lemma snapshot_name_inj (i j : nat) : snapshot_name i = snapshot_name j -> i = j.
Proof.
  unfold snapshot_name. intros H.
  apply string_append_assoc_cancel_l, string_append_cancel_r in H.
  now apply string_of_nat_inj.
Qed.

Section Loop.

Variable img_width : nat.
Variable feature_extractor : tensor -> string -> tensor.
Variable tape_gradient : (tensor -> R) -> tensor -> tensor.
Variables base style : list R.

(** A gradient has as many entries as the variable it is taken at. *)
Hypothesis gradient_size :
  forall f x, length (data (tape_gradient f x)) = length (data x).

(** [preprocess_image] returns a picture of the notebook's size. *)
Hypothesis base_size : length base = (img_height * img_width * 3)%nat.

Lemma length_descend (n : nat) :
  length (data (descend img_width feature_extractor tape_gradient base style n)) =
  (img_height * img_width * 3)%nat.
Proof using gradient_size base_size.
  induction n as [|n IH]; [exact base_size|].
  cbn [descend]. unfold assign_sub_scaled, compute_loss_and_grads.
  cbn [data snd]. rewrite length_zip_with, gradient_size, IH. lia.
Qed.

Lemma shape_descend (n : nat) :
  shape (descend img_width feature_extractor tape_gradient base style n) =
  [1; img_height; img_width; 3]%nat.
Proof using Type.
  induction n as [|n IH]; [reflexivity|]. cbn [descend]. exact IH.
Qed.

Lemma loop_invariant_initial :
  loop_invariant img_width feature_extractor tape_gradient base style 0
    (initial_state img_width base style).
Proof using Type.
  unfold loop_invariant, initial_state.
  cbn [st_heap st_next combination_image opt_iterations saved printed].
  split; [reflexivity|]. split; [reflexivity|]. split; [apply Nat.le_refl|].
  repeat split; reflexivity.
Qed.

Lemma loop_body_invariant (n : nat) (st : state) :
  loop_invariant img_width feature_extractor tape_gradient base style n st ->
  exists st',
    loop_body img_width feature_extractor tape_gradient st (S n) = Some st' /\
    loop_invariant img_width feature_extractor tape_gradient base style (S n) st'.
Proof using gradient_size base_size.
  intros (Hb & Hs & Hnext & Hx & Hit & Hsaved & Hprinted).
  unfold loop_body, read_array. rewrite Hb, Hs.
  unfold compute_loss_and_grads, apply_gradients.
  cbn [st_heap st_next combination_image opt_iterations saved printed
       nd_shape base_image style_reference_image].
  rewrite Hx, Hit.
  set (x' := assign_sub_scaled _ _ _).
  assert (Hx' : x' = descend img_width feature_extractor tape_gradient base style (S n))
    by reflexivity.
  pose proof (snapshot_iterations_S n) as HS.
  destruct (S n mod 100 =? 0)%nat.
  - rewrite (deprocess_image_ok img_width _ _ (data x')).
    + eexists. split; [reflexivity|]. unfold loop_invariant.
      cbn [st_heap st_next combination_image opt_iterations saved printed
           buf base_image style_reference_image nd_shape] in *.
      rewrite !lookup_insert_ne by lia. rewrite HS, !map_app.
      cbn [map]. replace (S n - 1)%nat with n by lia.
      rewrite Hsaved, Hprinted, Hx'.
      repeat split; try assumption; try reflexivity. lia.
    + cbn [buf]. apply lookup_insert_eq.
    + rewrite Hx'. apply length_descend.
  - eexists. split; [reflexivity|]. unfold loop_invariant.
    cbn [st_heap st_next combination_image opt_iterations saved printed].
    rewrite HS. repeat split; assumption.
Qed.

Lemma run_loop_invariant (n : nat) :
  exists st,
    run_loop img_width feature_extractor tape_gradient n
      (initial_state img_width base style) = Some st /\
    loop_invariant img_width feature_extractor tape_gradient base style n st.
Proof using gradient_size base_size.
  induction n as [|n (st & Hrun & Hinv)].
  - eexists. split; [reflexivity | apply loop_invariant_initial].
  - rewrite run_loop_S, Hrun. now apply loop_body_invariant.
Qed.

End Loop.

(** * Lemmas on float32 rounding *)

Section Float32Rounding.

Local Open Scope Z_scope.

Lemma pow2_xO (p : positive) : 2 ^ Z.pos p~0 = 2 ^ Z.pos p * 2 ^ Z.pos p.
Proof.
  assert (H : Z.pos p~0 = Z.pos p + Z.pos p) by lia.
  rewrite H. apply Z.pow_add_r; lia.
Qed.

Lemma pow2_xI (p : positive) : 2 ^ Z.pos p~1 = 2 * (2 ^ Z.pos p * 2 ^ Z.pos p).
Proof.
  assert (H : Z.pos p~1 = 1 + (Z.pos p + Z.pos p)) by lia.
  rewrite H, Z.pow_add_r, Z.pow_1_r, Z.pow_add_r by lia. reflexivity.
Qed.

Lemma pow2_pos (n : Z) : 0 < 2 ^ n \/ (n < 0 /\ 2 ^ n = 0).
Proof.
  destruct (Z.le_gt_cases 0 n) as [H|H].
  - left. apply Z.pow_pos_nonneg; lia.
  - right. split; [lia | apply Z.pow_neg_r; lia].
Qed.

Lemma shr_1_m (mrs : shr_record) :
  0 <= shr_m mrs -> shr_m (shr_1 mrs) = shr_m mrs / 2.
Proof.
  destruct mrs as [m r s]. cbn [shr_m shr_1]. intros Hm.
  destruct m as [|p|p]; [reflexivity| |lia].
  destruct p as [p|p|]; cbn [shr_m].
  - Z.div_mod_to_equations. lia.
  - Z.div_mod_to_equations. lia.
  - reflexivity.
Qed.

Lemma iter_pos_shr_1_m (p : positive) (mrs : shr_record) :
  0 <= shr_m mrs ->
  shr_m (SpecFloat.iter_pos shr_1 p mrs) = shr_m mrs / 2 ^ Zpos p.
Proof.
  revert mrs. induction p as [p IH|p IH|]; intros mrs Hm; cbn [SpecFloat.iter_pos].
  - assert (Hp : 0 < 2 ^ Z.pos p) by (apply Z.pow_pos_nonneg; lia).
    assert (H1 : 0 <= shr_m (shr_1 mrs))
      by (rewrite shr_1_m by assumption; apply Z.div_pos; lia).
    assert (H2 : 0 <= shr_m (SpecFloat.iter_pos shr_1 p (shr_1 mrs)))
      by (rewrite IH by assumption; apply Z.div_pos; lia).
    rewrite IH, IH, shr_1_m by assumption.
    rewrite !Z.div_div by lia. now rewrite pow2_xI, Z.mul_assoc.
  - assert (Hp : 0 < 2 ^ Z.pos p) by (apply Z.pow_pos_nonneg; lia).
    assert (H2 : 0 <= shr_m (SpecFloat.iter_pos shr_1 p mrs))
      by (rewrite IH by assumption; apply Z.div_pos; lia).
    rewrite IH, IH by assumption.
    rewrite !Z.div_div by lia. now rewrite pow2_xO.
  - rewrite shr_1_m by assumption. reflexivity.
Qed.

Lemma digits2_pos_lower (p : positive) : 2 ^ (Zpos (digits2_pos p) - 1) <= Zpos p.
Proof.
  induction p as [p IH|p IH|]; cbn [digits2_pos].
  - assert (H : Z.pos (Pos.succ (digits2_pos p)) - 1 =
                1 + (Z.pos (digits2_pos p) - 1)) by lia.
    rewrite H, Z.pow_add_r, Z.pow_1_r by lia. lia.
  - assert (H : Z.pos (Pos.succ (digits2_pos p)) - 1 =
                1 + (Z.pos (digits2_pos p) - 1)) by lia.
    rewrite H, Z.pow_add_r, Z.pow_1_r by lia. lia.
  - reflexivity.
Qed.

(** Shifting a positive mantissa to the float32 format keeps it positive,
    when its exponent is not below the smallest exponent; the exponent of the
    result is in range in every case. *)
Lemma shr_fexp_positive (m e : Z) (l : location) :
  0 < m -> -149 <= e ->
  0 < shr_m (fst (shr_fexp 24 128 m e l)) /\ -149 <= snd (shr_fexp 24 128 m e l).
Proof.
  intros Hm He. unfold shr_fexp, shr, fexp, emin.
  destruct m as [|p|p]; try lia. cbn [Zdigits2].
  pose proof (digits2_pos_lower p) as Hd.
  set (d := Z.pos (digits2_pos p)) in *.
  assert (Hrec : shr_m (shr_record_of_loc (Z.pos p) l) = Z.pos p)
    by (destruct l as [|[]]; reflexivity).
  destruct (Z.max (d + e - 24) (3 - 128 - 24) - e) as [|n|n] eqn:Hn;
    cbn [fst snd]; try (rewrite Hrec; lia).
  rewrite iter_pos_shr_1_m by (rewrite Hrec; lia). rewrite Hrec. split; [|lia].
  apply Z.div_str_pos. split; [apply Z.pow_pos_nonneg; lia|].
  transitivity (2 ^ (d - 1)); [|exact Hd].
  apply Z.pow_le_mono_r; lia.
Qed.

Lemma shr_fexp_nonneg (m e : Z) (l : location) :
  0 <= m ->
  0 <= shr_m (fst (shr_fexp 24 128 m e l)) /\ -149 <= snd (shr_fexp 24 128 m e l).
Proof.
  intros Hm. unfold shr_fexp, shr, fexp, emin.
  assert (Hrec : shr_m (shr_record_of_loc m l) = m)
    by (destruct l as [|[]]; reflexivity).
  destruct (Z.max (Zdigits2 m + e - 24) (3 - 128 - 24) - e) as [|n|n] eqn:Hn;
    cbn [fst snd]; try (rewrite Hrec; lia).
  rewrite iter_pos_shr_1_m by (rewrite Hrec; lia). rewrite Hrec. split; [|lia].
  apply Z.div_pos; [lia | apply Z.pow_pos_nonneg; lia].
Qed.

Lemma round_nearest_even_ge (m : Z) (l : location) : m <= round_nearest_even m l.
Proof.
  unfold round_nearest_even. destruct l as [|[]]; try lia.
  destruct (Z.even m); lia.
Qed.

Lemma binary_round_aux_sign (s : bool) (m e : Z) (l : location) :
  0 <= m -> rounded_with_sign s (binary_round_aux 24 128 s m e l).
Proof.
  intros Hm. unfold binary_round_aux.
  pose proof (shr_fexp_nonneg m e l Hm) as [H1 H1e].
  destruct (shr_fexp 24 128 m e l) as [mrs' e']. cbn [fst snd] in *.
  pose proof (round_nearest_even_ge (shr_m mrs') (loc_of_shr_record mrs')) as Hr.
  pose proof (shr_fexp_nonneg
    (round_nearest_even (shr_m mrs') (loc_of_shr_record mrs')) e' loc_Exact
    ltac:(lia)) as [H2 H2e].
  destruct (shr_fexp 24 128 _ e' loc_Exact) as [mrs'' e'']. cbn [fst snd] in *.
  destruct (shr_m mrs'') as [|p|p]; [reflexivity| |lia].
  destruct (e'' <=? 128 - 24); cbn; auto.
Qed.

Lemma binary_round_aux_nonzero (s : bool) (m e : Z) (l : location) :
  0 < m -> -149 <= e -> ~ is_zero (binary_round_aux 24 128 s m e l).
Proof.
  intros Hm He. unfold binary_round_aux.
  pose proof (shr_fexp_positive m e l Hm He) as [H1 H1e].
  destruct (shr_fexp 24 128 m e l) as [mrs' e']. cbn [fst snd] in *.
  pose proof (round_nearest_even_ge (shr_m mrs') (loc_of_shr_record mrs')) as Hr.
  pose proof (shr_fexp_positive
    (round_nearest_even (shr_m mrs') (loc_of_shr_record mrs')) e' loc_Exact
    ltac:(lia) H1e) as [H2 H2e].
  destruct (shr_fexp 24 128 _ e' loc_Exact) as [mrs'' e'']. cbn [fst snd] in *.
  destruct (shr_m mrs'') as [|p|p]; [lia| |lia].
  destruct (e'' <=? 128 - 24); cbn; auto.
Qed.

Lemma binary_round_sign (s : bool) (m : positive) (e : Z) :
  rounded_with_sign s (binary_round 24 128 s m e).
Proof.
  unfold binary_round. destruct (shl_align m e _) as [mz ez].
  apply binary_round_aux_sign. lia.
Qed.

Lemma binary_round_nonzero (s : bool) (m : positive) (e : Z) :
  -149 <= e -> ~ is_zero (binary_round 24 128 s m e).
Proof.
  intros He. unfold binary_round.
  destruct (shl_align m e (fexp 24 128 (Z.pos (digits2_pos m) + e)))
    as [mz ez] eqn:Hsh.
  apply binary_round_aux_nonzero; [lia|].
  unfold shl_align, fexp, emin in Hsh.
  destruct (Z.max (Z.pos (digits2_pos m) + e - 24) (3 - 128 - 24) - e) eqn:Hd;
    injection Hsh as _ <-; lia.
Qed.

Lemma rounded_false_nonneg (x : spec_float) :
  rounded_with_sign false x -> f32_nonneg_value x.
Proof. destruct x; cbn; auto. Qed.

Lemma nonneg_value_sign_clear (x : spec_float) :
  f32_nonneg_value x -> sign_clear x.
Proof. destruct x; cbn; tauto. Qed.

Lemma f32_sub_self (x : spec_float) : f32_finite x -> f32_sub x x = f32_zero.
Proof.
  destruct x as [s|s| |s m e]; cbn; try contradiction; intros _.
  - destruct s; reflexivity.
  - now rewrite Z.sub_diag.
Qed.

Lemma binary_normalize_not_nan (m e : Z) (sz : bool) :
  binary_normalize 24 128 m e sz <> S754_nan.
Proof.
  destruct m as [|p|p]; cbn [binary_normalize]; [discriminate| |].
  - pose proof (binary_round_sign false p e) as H.
    destruct (binary_round 24 128 false p e); cbn in H; try discriminate.
    contradiction.
  - pose proof (binary_round_sign true p e) as H.
    destruct (binary_round 24 128 true p e); cbn in H; try discriminate.
    contradiction.
Qed.

Lemma f32_sub_not_nan (x y : spec_float) :
  f32_finite x -> f32_finite y -> f32_sub x y <> S754_nan.
Proof.
  destruct x as [sx|sx| |sx mx ex]; destruct y as [sy|sy| |sy my ey];
    cbn; try contradiction; intros _ _; try discriminate.
  - destruct sx, sy; discriminate.
  - apply binary_normalize_not_nan.
Qed.

Lemma f32_mul_self_sign_clear (d : spec_float) : sign_clear (f32_mul d d).
Proof.
  destruct d as [s|s| |s m e]; cbn; try (destruct s; reflexivity); [exact I|].
  pose proof (binary_round_aux_sign (xorb s s) (Z.pos (m * m)) (e + e) loc_Exact
                ltac:(lia)) as H.
  rewrite Bool.xorb_nilpotent in *.
  destruct (binary_round_aux 24 128 false _ _ _); cbn in *; tauto.
Qed.

Lemma f32_mul_self_nonneg (d : spec_float) :
  d <> S754_nan -> f32_nonneg_value (f32_mul d d).
Proof.
  destruct d as [s|s| |s m e]; cbn; try (destruct s; reflexivity);
    [congruence|]. intros _.
  pose proof (binary_round_aux_sign (xorb s s) (Z.pos (m * m)) (e + e) loc_Exact
                ltac:(lia)) as H.
  rewrite Bool.xorb_nilpotent in *. now apply rounded_false_nonneg.
Qed.

Lemma f32_add_nonneg (x y : spec_float) :
  f32_nonneg_value x -> f32_nonneg_value y ->
  f32_nonneg_value (f32_add x y) /\
  (f32_add x y = f32_zero <-> x = f32_zero /\ y = f32_zero).
Proof.
  destruct x as [sx|sx| |sx mx ex]; destruct y as [sy|sy| |sy my ey];
    cbn; try contradiction; intros Hx Hy; subst;
    try (split; [cbn; auto | split; [discriminate | intros [? ?]; discriminate]]).
  - split; [reflexivity | split; auto].
  - destruct Hx as [-> Hex], Hy as [-> Hey]. cbn [cond_Zopp].
    destruct (shl_align mx ex (Z.min ex ey)) as [ax ?].
    destruct (shl_align my ey (Z.min ex ey)) as [ay ?]. cbn [fst].
    change (binary_normalize 24 128 (Z.pos ax + Z.pos ay) (Z.min ex ey) false)
      with (binary_round 24 128 false (ax + ay) (Z.min ex ey)).
    pose proof (binary_round_sign false (ax + ay) (Z.min ex ey)) as Hs.
    pose proof (binary_round_nonzero false (ax + ay) (Z.min ex ey) ltac:(lia))
      as Hz.
    split; [now apply rounded_false_nonneg|].
    split; [|intros [? ?]; discriminate].
    intros H0. rewrite H0 in Hz. exfalso. apply Hz. exact I.
Qed.

Lemma f32_add_sign_clear (x y : spec_float) :
  sign_clear x -> sign_clear y -> sign_clear (f32_add x y).
Proof.
  destruct x as [sx|sx| |sx mx ex]; destruct y as [sy|sy| |sy my ey];
    cbn -[binary_round_aux binary_normalize SFdiv_core_binary];
    intros Hx Hy; subst; auto; try reflexivity.
  cbn [cond_Zopp].
  destruct (shl_align mx ex (Z.min ex ey)) as [ax ?].
  destruct (shl_align my ey (Z.min ex ey)) as [ay ?]. cbn [fst].
  change (binary_normalize 24 128 (Z.pos ax + Z.pos ay) (Z.min ex ey) false)
    with (binary_round 24 128 false (ax + ay) (Z.min ex ey)).
  pose proof (binary_round_sign false (ax + ay) (Z.min ex ey)) as Hs.
  destruct (binary_round 24 128 false _ _); cbn in *; tauto.
Qed.

Lemma f32_mul_sign_clear (x y : spec_float) :
  sign_clear x -> sign_clear y -> sign_clear (f32_mul x y).
Proof.
  destruct x as [sx|sx| |sx mx ex]; destruct y as [sy|sy| |sy my ey];
    cbn -[binary_round_aux binary_normalize SFdiv_core_binary];
    intros Hx Hy; subst; auto; try reflexivity.
  pose proof (binary_round_aux_sign false (Z.pos (mx * my)) (ex + ey) loc_Exact
                ltac:(lia)) as H.
  change (xorb false false) with false.
  destruct (binary_round_aux 24 128 false _ _ _); cbn in *; tauto.
Qed.

Lemma SFdiv_core_binary_nonneg (m1 m2 : positive) (e1 e2 : Z) :
  0 <= fst (fst (SFdiv_core_binary 24 128 (Z.pos m1) e1 (Z.pos m2) e2)).
Proof.
  unfold SFdiv_core_binary.
  set (s := e1 - e2 - _).
  set (m' := match s with Z.pos _ => Z.shiftl (Z.pos m1) s | 0 => Z.pos m1
                        | Z.neg _ => 0 end).
  assert (Hm' : 0 <= m').
  { unfold m'. destruct s; try lia. apply Z.shiftl_nonneg. lia. }
  pose proof (Z_div_mod m' (Z.pos m2) ltac:(lia)) as Hdiv.
  destruct (Z.div_eucl m' (Z.pos m2)) as [q r]. cbn [fst].
  destruct Hdiv as [Heq Hr]. nia.
Qed.

Lemma f32_div_sign_clear (x y : spec_float) :
  sign_clear x -> sign_clear y -> sign_clear (f32_div x y).
Proof.
  destruct x as [sx|sx| |sx mx ex]; destruct y as [sy|sy| |sy my ey];
    cbn -[binary_round_aux binary_normalize SFdiv_core_binary];
    intros Hx Hy; subst; auto; try reflexivity.
  pose proof (SFdiv_core_binary_nonneg mx my ex ey) as Hq.
  destruct (SFdiv_core_binary 24 128 (Z.pos mx) ex (Z.pos my) ey) as [[mz ez] lz].
  cbn [fst] in Hq.
  pose proof (binary_round_aux_sign false mz ez lz Hq) as H.
  change (xorb false false) with false.
  destruct (binary_round_aux 24 128 false _ _ _); cbn in *; tauto.
Qed.

End Float32Rounding.

(** * Lemmas on float32 buffers and sums *)

Lemma length_tabulate32 (sh : list nat) (f : list nat -> spec_float) :
  length (tabulate32 sh f) = numel sh.
Proof.
  revert f. induction sh as [|d sh IH]; intros f; simpl; [reflexivity|].
  generalize 0%nat at 1. induction d as [|d IHd]; intros a; simpl; [reflexivity|].
  rewrite length_app, IH, IHd. reflexivity.
Qed.

Lemma nth_flat_map_block32 (g : nat -> list spec_float) (m : nat) (a d i r : nat) :
  (forall k, length (g k) = m) -> (i < d)%nat -> (r < m)%nat ->
  nth (i * m + r) (flat_map g (seq a d)) f32_zero = nth r (g (a + i)%nat) f32_zero.
Proof.
  intros Hg. revert a i. induction d as [|d IH]; intros a i Hi Hr; [lia|].
  simpl. destruct i as [|i].
  - rewrite app_nth1 by (rewrite Hg; lia). simpl. now rewrite Nat.add_0_r.
  - rewrite app_nth2 by (rewrite Hg; nia).
    rewrite Hg. replace (S i * m + r - m)%nat with (i * m + r)%nat by nia.
    rewrite IH by lia. f_equal. f_equal. lia.
Qed.

Lemma nth_tabulate32 (sh idx : list nat) (f : list nat -> spec_float) :
  in_range sh idx -> nth (offset sh idx) (tabulate32 sh f) f32_zero = f idx.
Proof.
  revert idx f. induction sh as [|d sh IH]; intros idx f H.
  - apply in_range_nil_inv in H. subst. reflexivity.
  - apply in_range_cons_inv in H. destruct H as (i & idx' & -> & Hi & H).
    simpl. rewrite (nth_flat_map_block32 _ (numel sh)).
    + simpl. apply (IH idx' (fun idx => f (i :: idx))). exact H.
    + intros k. apply length_tabulate32.
    + exact Hi.
    + apply offset_lt. exact H.
Qed.

Lemma get_build32 (sh idx : list nat) (f : list nat -> spec_float) :
  in_range sh idx -> get32 (build32 sh f) idx = f idx.
Proof. intros H. unfold get32, build32. simpl. now apply nth_tabulate32. Qed.

Lemma flat_map_ext_seq32 (g1 g2 : nat -> list spec_float) (a d : nat) :
  (forall i, (a <= i < a + d)%nat -> g1 i = g2 i) ->
  flat_map g1 (seq a d) = flat_map g2 (seq a d).
Proof.
  revert a. induction d as [|d IH]; intros a H; simpl; [reflexivity|].
  rewrite H by lia. f_equal. apply IH. intros i Hi. apply H. lia.
Qed.

Lemma tabulate32_ext (sh : list nat) (f g : list nat -> spec_float) :
  (forall idx, in_range sh idx -> f idx = g idx) ->
  tabulate32 sh f = tabulate32 sh g.
Proof.
  revert f g. induction sh as [|d sh IH]; intros f g H; simpl.
  - rewrite H; [reflexivity | constructor].
  - apply flat_map_ext_seq32. intros i Hi. apply IH. intros idx Hidx.
    apply H. apply in_range_cons. split; [lia | exact Hidx].
Qed.

Lemma map_tabulate32 (h : spec_float -> spec_float) (sh : list nat)
  (f : list nat -> spec_float) :
  map h (tabulate32 sh f) = tabulate32 sh (fun idx => h (f idx)).
Proof.
  revert f. induction sh as [|d sh IH]; intros f; simpl; [reflexivity|].
  generalize 0%nat. induction d as [|d IHd]; intros a; simpl; [reflexivity|].
  now rewrite map_app, IH, IHd.
Qed.

Lemma zip_with_app32 (h : spec_float -> spec_float -> spec_float)
  (l1 l2 k1 k2 : list spec_float) :
  length l1 = length k1 ->
  zip_with h (l1 ++ l2) (k1 ++ k2) = zip_with h l1 k1 ++ zip_with h l2 k2.
Proof.
  revert k1. induction l1 as [|x l1 IH]; intros [|y k1] Hl; simpl in *;
    try discriminate; [reflexivity|].
  f_equal. apply IH. lia.
Qed.

Lemma zip_with_tabulate32 (h : spec_float -> spec_float -> spec_float)
  (sh : list nat) (f g : list nat -> spec_float) :
  zip_with h (tabulate32 sh f) (tabulate32 sh g) =
  tabulate32 sh (fun idx => h (f idx) (g idx)).
Proof.
  revert f g. induction sh as [|d sh IH]; intros f g; simpl; [reflexivity|].
  generalize 0%nat. induction d as [|d IHd]; intros a; simpl; [reflexivity|].
  rewrite zip_with_app32 by (now rewrite !length_tabulate32).
  now rewrite IH, IHd.
Qed.

Lemma Forall_tabulate32 (P : spec_float -> Prop) (sh : list nat)
  (f : list nat -> spec_float) :
  Forall P (tabulate32 sh f) <-> (forall idx, in_range sh idx -> P (f idx)).
Proof.
  revert f. induction sh as [|d sh IH]; intros f; simpl.
  - split.
    + intros H idx Hidx. apply in_range_nil_inv in Hidx. subst.
      now inversion H.
    + intros H. constructor; [apply H; constructor | constructor].
  - rewrite Forall_flat_map, List.Forall_forall. split.
    + intros H idx Hidx. apply in_range_cons_inv in Hidx.
      destruct Hidx as (i & idx' & -> & Hi & Hidx).
      specialize (H i). rewrite IH in H. apply H; [|exact Hidx].
      apply in_seq. lia.
    + intros H i Hi. apply in_seq in Hi. apply IH. intros idx Hidx.
      apply H. apply in_range_cons. split; [lia | exact Hidx].
Qed.

(** Sums of values that are not negative. *)

Lemma fold_add_sign_clear (l : list spec_float) (acc : spec_float) :
  sign_clear acc -> Forall sign_clear l -> sign_clear (fold_left f32_add l acc).
Proof.
  revert acc. induction l as [|v l IH]; intros acc Hacc Hl; [exact Hacc|].
  inversion Hl as [|? ? Hv Hl']; subst. cbn [fold_left].
  apply IH; [now apply f32_add_sign_clear | exact Hl'].
Qed.

Lemma fold_add_nonneg (l : list spec_float) (acc : spec_float) :
  f32_nonneg_value acc -> Forall f32_nonneg_value l ->
  f32_nonneg_value (fold_left f32_add l acc) /\
  (fold_left f32_add l acc = f32_zero <->
   acc = f32_zero /\ Forall (fun v => v = f32_zero) l).
Proof.
  revert acc. induction l as [|v l IH]; intros acc Hacc Hl; cbn [fold_left].
  - split; [exact Hacc|]. split; [intros ->; split; [reflexivity | constructor]|].
    now intros [-> _].
  - inversion Hl as [|? ? Hv Hl']; subst.
    destruct (f32_add_nonneg acc v Hacc Hv) as [Hn Hz].
    destruct (IH (f32_add acc v) Hn Hl') as [Hn' Hz'].
    split; [exact Hn'|]. rewrite Hz', Hz. split.
    + intros [[-> ->] Hall]. split; [reflexivity | now constructor].
    + intros [-> Hall]. inversion Hall; subst. auto.
Qed.

Lemma nonneg_value_positive (x : spec_float) :
  f32_nonneg_value x -> x <> f32_zero -> f32_lt f32_zero x = true.
Proof.
  destruct x as [s|s| |s m e]; cbn; try contradiction.
  - intros -> H. exfalso. apply H. reflexivity.
  - intros ->. reflexivity.
  - intros [-> _] _. reflexivity.
Qed.

Lemma nonneg_value_le (x : spec_float) :
  f32_nonneg_value x -> f32_le f32_zero x = true.
Proof.
  destruct x as [s|s| |s m e]; cbn; try contradiction.
  - reflexivity.
  - intros ->. reflexivity.
  - intros [-> _]. reflexivity.
Qed.

Lemma sign_clear_never_negative (x : spec_float) :
  sign_clear x -> x = S754_nan \/ f32_le f32_zero x = true.
Proof.
  destruct x as [s|s| |s m e]; cbn; auto; intros ->; right; reflexivity.
Qed.

Lemma squared_difference_nonneg (c x : spec_float) :
  f32_finite c -> f32_finite x ->
  f32_nonneg_value (f32_mul (f32_sub c x) (f32_sub c x)).
Proof.
  intros Hc Hx. apply f32_mul_self_nonneg. now apply f32_sub_not_nan.
Qed.

Lemma content_loss32_unfold (base_img combination_img : tensor32) :
  content_loss32 base_img combination_img =
  fold_left f32_add (squared_differences32 base_img combination_img) f32_zero.
Proof.
  unfold content_loss32, tf_reduce_sum32, tf_square32, tsub32,
    squared_differences32. cbn [data32]. f_equal.
  generalize (data32 base_img). induction (data32 combination_img) as [|c l IH];
    intros [|x k]; simpl; try reflexivity. now rewrite IH.
Qed.

Lemma squared_differences32_nonneg (a b : tensor32) :
  Forall f32_finite (data32 a) -> Forall f32_finite (data32 b) ->
  Forall f32_nonneg_value (squared_differences32 a b).
Proof.
  unfold squared_differences32. intros Ha Hb. revert Ha.
  generalize (data32 a). induction Hb as [|c l Hc Hl IH]; intros [|x k] Hk;
    simpl; constructor.
  - inversion Hk; subst. now apply squared_difference_nonneg.
  - inversion Hk; subst. now apply IH.
Qed.

Lemma squared_differences32_sign_clear (a b : tensor32) :
  Forall sign_clear (squared_differences32 a b).
Proof.
  unfold squared_differences32. generalize (data32 a).
  induction (data32 b) as [|c l IH]; intros [|x k]; simpl; constructor.
  - apply f32_mul_self_sign_clear.
  - apply IH.
Qed.

Lemma squared_differences32_self (a : tensor32) :
  Forall f32_finite (data32 a) ->
  Forall (fun v => v = f32_zero) (squared_differences32 a a).
Proof.
  unfold squared_differences32. induction 1 as [|c l Hc Hl IH]; simpl; constructor.
  - now rewrite f32_sub_self.
  - exact IH.
Qed.

(** The result of adding values that are not negative, in any order and
    grouping: not negative, and [+0] exactly when every value is [+0]. *)
Lemma additions_nonneg (l : list spec_float) (s : spec_float) :
  additions l s -> Forall f32_nonneg_value l ->
  f32_nonneg_value s /\ (s = f32_zero <-> Forall (fun v => v = f32_zero) l).
Proof.
  induction 1 as [|v|l1 l2 s1 s2 _ IH1 _ IH2|l l' s Hp _ IH]; intros Hl.
  - split; [reflexivity | split; [constructor | reflexivity]].
  - inversion Hl; subst. split; [assumption|]. split.
    + intros ->. now constructor.
    + intros H. now inversion H.
  - apply Forall_app in Hl. destruct Hl as [Hl1 Hl2].
    destruct (IH1 Hl1) as [Hn1 Hz1]. destruct (IH2 Hl2) as [Hn2 Hz2].
    destruct (f32_add_nonneg s1 s2 Hn1 Hn2) as [Hn Hz].
    split; [exact Hn|]. rewrite Hz, Hz1, Hz2. split.
    + intros [H1 H2]. apply Forall_app. now split.
    + intros H. apply Forall_app in H. exact H.
  - assert (Hl0 : Forall f32_nonneg_value l)
      by (eapply Permutation_Forall; [symmetry; exact Hp | exact Hl]).
    destruct (IH Hl0) as [Hn Hz]. split; [exact Hn|]. rewrite Hz. split.
    + intros H. eapply Permutation_Forall; [exact Hp | exact H].
    + intros H. eapply Permutation_Forall; [symmetry; exact Hp | exact H].
Qed.

Lemma additions_sign_clear (l : list spec_float) (s : spec_float) :
  additions l s -> Forall sign_clear l -> sign_clear s.
Proof.
  induction 1 as [|v|l1 l2 s1 s2 _ IH1 _ IH2|l l' s Hp _ IH]; intros Hl.
  - reflexivity.
  - now inversion Hl.
  - apply Forall_app in Hl. destruct Hl as [Hl1 Hl2].
    apply f32_add_sign_clear; auto.
  - apply IH. eapply Permutation_Forall; [symmetry; exact Hp | exact Hl].
Qed.

Lemma additions_fold_left (l : list spec_float) :
  additions l (fold_left f32_add l f32_zero).
Proof.
  assert (H : forall k acc, additions k acc ->
            additions (k ++ l) (fold_left f32_add l acc)).
  { induction l as [|v l IH]; intros k acc Hk; cbn [fold_left].
    - now rewrite app_nil_r.
    - replace (k ++ v :: l) with ((k ++ [v]) ++ l)
        by (now rewrite <- app_assoc).
      apply IH. apply additions_app; [exact Hk | constructor]. }
  apply (H [] f32_zero). constructor.
Qed.

(** * Lemmas on the float32 total variation loss *)

Lemma total_variation_loss32_unfold (img_width : nat)
  (pow32 : spec_float -> spec_float -> spec_float) (x : tensor32) (n c : nat) :
  shape32 x = [n; img_height; img_width; c] ->
  total_variation_loss32 img_width pow32 x =
  fold_left f32_add
    (tabulate32 [n; (img_height - 1)%nat; (img_width - 1)%nat; c]
                (tv_term32 pow32 x))
    f32_zero.
Proof.
  unfold total_variation_loss32. generalize img_height as h. intros h Hs.
  unfold tf_reduce_sum32, tf_pow32, tadd32, tf_square32, tsub32, tf_slice32,
    build32.
  rewrite Hs.
  cbn [zip_with slice_bounds sl_start sl_stop map fst snd data32 shape32].
  rewrite !clamp_index_pred, !clamp_index_one, !Nat.sub_0_r.
  replace (h - Nat.min 1 h)%nat with (h - 1)%nat by lia.
  replace (img_width - Nat.min 1 img_width)%nat with (img_width - 1)%nat by lia.
  rewrite !zip_with_tabulate32, !map_tabulate32, zip_with_tabulate32,
    map_tabulate32.
  f_equal. apply tabulate32_ext. intros idx Hidx.
  apply in_range_4 in Hidx.
  destruct Hidx as (b & i & j & k & -> & Hb & Hi & Hj & Hk).
  unfold tv_term32. cbn [zip_with Nat.add].
  replace (Nat.min 1 h + i)%nat with (S i) by lia.
  replace (Nat.min 1 img_width + j)%nat with (S j) by lia.
  reflexivity.
Qed.

Lemma tv_term32_sign_clear (pow32 : spec_float -> spec_float -> spec_float)
  (x : tensor32) (idx : list nat) :
  (forall v, sign_clear v -> sign_clear (pow32 v f32_1_25)) ->
  sign_clear (tv_term32 pow32 x idx).
Proof.
  intros Hpow. unfold tv_term32.
  repeat (destruct idx as [|? idx]; try reflexivity).
  apply Hpow, f32_add_sign_clear; apply f32_mul_self_sign_clear.
Qed.

Lemma tv_term32_smooth (pow32 : spec_float -> spec_float -> spec_float)
  (x : tensor32) (b i j k : nat) :
  pow32 f32_zero f32_1_25 = f32_zero ->
  f32_finite (get32 x [b; i; j; k]) ->
  get32 x [b; i; j; k] = get32 x [b; S i; j; k] ->
  get32 x [b; i; j; k] = get32 x [b; i; S j; k] ->
  tv_term32 pow32 x [b; i; j; k] = f32_zero.
Proof.
  intros Hpow Hfin H1 H2. unfold tv_term32. rewrite <- H1, <- H2.
  rewrite f32_sub_self by exact Hfin. exact Hpow.
Qed.

Lemma fold_add_zeros (l : list spec_float) :
  Forall (fun v => v = f32_zero) l -> fold_left f32_add l f32_zero = f32_zero.
Proof.
  induction 1 as [|v l -> _ IH]; [reflexivity | exact IH].
Qed.

(** [x * sqrt (sqrt x)] has the properties of [tf.pow] that the statements
    on the total variation loss use. *)

Lemma SFsqrt_core_binary_nonneg (m : positive) (e : Z) :
  (0 <= fst (fst (SFsqrt_core_binary 24 128 (Z.pos m) e)))%Z.
Proof.
  unfold SFsqrt_core_binary.
  set (s := (e - 2 * _)%Z).
  set (m' := match s with Z.pos _ => Z.shiftl (Z.pos m) s | 0%Z => Z.pos m
                        | Z.neg _ => 0%Z end).
  assert (Hm' : (0 <= m')%Z).
  { unfold m'. destruct s; try lia. apply Z.shiftl_nonneg. lia. }
  pose proof (Z.sqrtrem_spec m' Hm') as Hs.
  destruct (Z.sqrtrem m') as [q r]. cbn [fst]. lia.
Qed.

Lemma f32_sqrt_sign_clear (x : spec_float) :
  sign_clear x -> sign_clear (f32_sqrt x).
Proof.
  destruct x as [s|s| |s m e]; cbn -[binary_round_aux SFsqrt_core_binary];
    intros Hx; subst; auto; try reflexivity.
  pose proof (SFsqrt_core_binary_nonneg m e) as Hq.
  destruct (SFsqrt_core_binary 24 128 (Z.pos m) e) as [[mz ez] lz].
  cbn [fst] in Hq.
  pose proof (binary_round_aux_sign false mz ez lz Hq) as H.
  destruct (binary_round_aux 24 128 false _ _ _); cbn in *; tauto.
Qed.

Lemma pow32_by_roots_zero : pow32_by_roots f32_zero f32_1_25 = f32_zero.
Proof. reflexivity. Qed.

Lemma pow32_by_roots_sign_clear (v : spec_float) :
  sign_clear v -> sign_clear (pow32_by_roots v f32_1_25).
Proof.
  intros Hv. unfold pow32_by_roots.
  apply f32_mul_sign_clear; [exact Hv|]. now do 2 apply f32_sqrt_sign_clear.
Qed.

(** The Python floats of the notebook are positive numbers. *)

Lemma binary_round_sign_clear (m : positive) (e : Z) :
  sign_clear (binary_round 24 128 false m e).
Proof.
  pose proof (binary_round_sign false m e) as H.
  destruct (binary_round 24 128 false m e); cbn in *; tauto.
Qed.

Lemma weights32_positive :
  f32_of_f64 content_weight64 = S754_finite false 14073749 (-49) /\
  f32_of_f64 total_variation_weight64 = S754_finite false 8796093 (-43) /\
  f32_of_f64 (f64_div style_weight64
                (f64_of_Z (Z.of_nat (length style_layer_names)))) =
    S754_finite false 14073749 (-46).
Proof. repeat split; vm_compute; reflexivity. Qed.

Lemma binary_round_aux_sign_clear (prec emax m e : Z) (l : location) :
  sign_clear (binary_round_aux prec emax false m e l).
Proof.
  unfold binary_round_aux.
  destruct (shr_fexp prec emax m e l) as [mrs' e'].
  destruct (shr_fexp prec emax _ e' loc_Exact) as [mrs'' e''].
  destruct (shr_m mrs''); [reflexivity| |exact I].
  destruct (e'' <=? emax - prec)%Z; reflexivity.
Qed.

Lemma SFmul_sign_clear (prec emax : Z) (x y : spec_float) :
  sign_clear x -> sign_clear y -> sign_clear (SFmul prec emax x y).
Proof.
  destruct x as [sx|sx| |sx mx ex]; destruct y as [sy|sy| |sy my ey];
    cbn -[binary_round_aux]; intros Hx Hy; subst; auto; try reflexivity.
  apply binary_round_aux_sign_clear.
Qed.

Lemma f64_of_Z_sign_clear (m : Z) : (0 <= m)%Z -> sign_clear (f64_of_Z m).
Proof.
  intros Hm. unfold f64_of_Z. destruct m as [|p|p]; [reflexivity| |lia].
  cbn [binary_normalize]. unfold binary_round.
  destruct (shl_align p 0 _) as [mz ez]. apply binary_round_aux_sign_clear.
Qed.

Lemma f32_of_f64_sign_clear (x : spec_float) :
  sign_clear x -> sign_clear (f32_of_f64 x).
Proof.
  destruct x as [s|s| |s m e]; cbn -[binary_round]; auto.
  intros ->. apply binary_round_sign_clear.
Qed.

Lemma style_normaliser_sign_clear (img_width : nat) :
  sign_clear (f32_of_f64 (style_normaliser64 img_width)).
Proof.
  apply f32_of_f64_sign_clear. unfold style_normaliser64, f64_mul.
  repeat apply SFmul_sign_clear; apply f64_of_Z_sign_clear;
    try (apply Z.pow_nonneg); lia.
Qed.

Lemma squares_sum_sign_clear (a b : tensor32) :
  sign_clear (tf_reduce_sum32 (tf_square32 (tsub32 a b))).
Proof.
  unfold tf_reduce_sum32, tf_square32. cbn [data32].
  apply fold_add_sign_clear; [reflexivity|].
  apply List.Forall_forall. intros v Hv. apply in_map_iff in Hv.
  destruct Hv as (d & <- & _). apply f32_mul_self_sign_clear.
Qed.

Lemma content_loss32_sign_clear (a b : tensor32) : sign_clear (content_loss32 a b).
Proof. apply squares_sum_sign_clear. Qed.

Lemma style_loss32_sign_clear (img_width : nat) (s c : tensor32) :
  sign_clear (style_loss32 img_width s c).
Proof.
  unfold style_loss32.
  apply f32_div_sign_clear;
    [apply squares_sum_sign_clear | apply style_normaliser_sign_clear].
Qed.

Lemma total_variation_loss32_sign_clear (img_width : nat)
  (pow32 : spec_float -> spec_float -> spec_float) (x : tensor32) :
  (forall v, sign_clear v -> sign_clear (pow32 v f32_1_25)) ->
  sign_clear (total_variation_loss32 img_width pow32 x).
Proof.
  intros Hpow. unfold total_variation_loss32, tf_reduce_sum32, tf_pow32.
  cbn [data32]. apply fold_add_sign_clear; [reflexivity|].
  apply List.Forall_forall. intros v Hv. apply in_map_iff in Hv.
  destruct Hv as (u & <- & Hu). apply Hpow.
  unfold tadd32, tf_square32 in Hu. cbn [data32] in Hu.
  revert Hu. generalize (data32 (tsub32 (tf_slice32 x
    [Slice None None; Slice None (Some (Z.of_nat img_height - 1)%Z);
     Slice None (Some (Z.of_nat img_width - 1)%Z); Slice None None])
    (tf_slice32 x [Slice None None; Slice (Some 1%Z) None;
     Slice None (Some (Z.of_nat img_width - 1)%Z); Slice None None]))).
  generalize (data32 (tsub32 (tf_slice32 x
    [Slice None None; Slice None (Some (Z.of_nat img_height - 1)%Z);
     Slice None (Some (Z.of_nat img_width - 1)%Z); Slice None None])
    (tf_slice32 x [Slice None None; Slice None (Some (Z.of_nat img_height - 1)%Z);
     Slice (Some 1%Z) None; Slice None None]))).
  intros l2 l1. revert l2. induction l1 as [|p l1 IH]; intros [|q l2]; simpl;
    try contradiction.
  intros [<-|Hin]; [|now apply (IH l2)].
  apply f32_add_sign_clear; apply f32_mul_self_sign_clear.
Qed.

Lemma weighted_term_sign_clear (w v acc : spec_float) :
  sign_clear w -> sign_clear v -> sign_clear acc ->
  sign_clear (f32_add acc (f32_mul w v)).
Proof.
  intros Hw Hv Hacc. apply f32_add_sign_clear; [exact Hacc|].
  now apply f32_mul_sign_clear.
Qed.

Lemma compute_loss32_sign_clear (img_width : nat)
  (feature_extractor32 : tensor32 -> string -> tensor32)
  (pow32 : spec_float -> spec_float -> spec_float) (x base style : tensor32) :
  (forall v, sign_clear v -> sign_clear (pow32 v f32_1_25)) ->
  sign_clear (compute_loss32 img_width feature_extractor32 pow32 x base style).
Proof.
  intros Hpow. destruct weights32_positive as (Hcw & Htw & Hsw).
  unfold compute_loss32. rewrite Hcw, Htw, Hsw.
  apply weighted_term_sign_clear;
    [reflexivity | now apply total_variation_loss32_sign_clear |].
  generalize style_layer_names as layers.
  assert (H0 : sign_clear
    (f32_add f32_zero
       (f32_mul (S754_finite false 14073749 (-49))
          (content_loss32
             (index0_32 (feature_extractor32 (tf_concat0_32 [base; style; x])
                           content_layer_name) 0)
             (index0_32 (feature_extractor32 (tf_concat0_32 [base; style; x])
                           content_layer_name) 2)))))
    by (apply weighted_term_sign_clear;
        [reflexivity | apply content_loss32_sign_clear | reflexivity]).
  revert H0. generalize (f32_add f32_zero
       (f32_mul (S754_finite false 14073749 (-49))
          (content_loss32
             (index0_32 (feature_extractor32 (tf_concat0_32 [base; style; x])
                           content_layer_name) 0)
             (index0_32 (feature_extractor32 (tf_concat0_32 [base; style; x])
                           content_layer_name) 2)))) as acc.
  intros acc Hacc layers. revert acc Hacc.
  induction layers as [|l layers IH]; intros acc Hacc; [exact Hacc|].
  cbn [fold_left]. apply IH. apply weighted_term_sign_clear;
    [reflexivity | apply style_loss32_sign_clear | exact Hacc].
Qed.

Lemma tv_term32_squared_steps (pow32 : spec_float -> spec_float -> spec_float)
  (x : tensor32) (b i j k : nat) :
  tv_term32 pow32 x [b; i; j; k] =
  pow32 (squared_steps32 x [b; i; j; k]) f32_1_25.
Proof. reflexivity. Qed.

Lemma tv_terms32_nonneg_value (img_width : nat)
  (pow32 : spec_float -> spec_float -> spec_float) (x : tensor32) (n c : nat) :
  (forall v, f32_nonneg_value v -> f32_nonneg_value (pow32 v f32_1_25)) ->
  (forall b i j k,
     (b < n)%nat -> (i < img_height)%nat -> (j < img_width)%nat -> (k < c)%nat ->
     f32_finite (get32 x [b; i; j; k])) ->
  Forall f32_nonneg_value
    (tabulate32 [n; (img_height - 1)%nat; (img_width - 1)%nat; c]
                (tv_term32 pow32 x)).
Proof.
  intros Hpow Hfin.
  apply Forall_tabulate32. intros idx Hidx. apply in_range_4 in Hidx.
  destruct Hidx as (b & i & j & k & -> & Hb & Hi & Hj & Hk).
  unfold tv_term32. apply Hpow.
  apply f32_add_nonneg; apply squared_difference_nonneg; apply Hfin; lia.
Qed.

Lemma total_variation_loss32_nonneg_value (img_width : nat)
  (pow32 : spec_float -> spec_float -> spec_float) (x : tensor32) (n c : nat) :
  (forall v, f32_nonneg_value v -> f32_nonneg_value (pow32 v f32_1_25)) ->
  shape32 x = [n; img_height; img_width; c] ->
  (forall b i j k,
     (b < n)%nat -> (i < img_height)%nat -> (j < img_width)%nat -> (k < c)%nat ->
     f32_finite (get32 x [b; i; j; k])) ->
  f32_nonneg_value (total_variation_loss32 img_width pow32 x).
Proof.
  intros Hpow Hs Hfin. rewrite (total_variation_loss32_unfold _ _ _ _ _ Hs).
  apply fold_add_nonneg; [reflexivity|].
  now apply tv_terms32_nonneg_value.
Qed.

(** A term that is not [+0] makes the sum positive. *)
Lemma total_variation_loss32_positive (img_width : nat)
  (pow32 : spec_float -> spec_float -> spec_float) (x : tensor32)
  (n c b i j k : nat) :
  (forall v, f32_nonneg_value v -> f32_nonneg_value (pow32 v f32_1_25)) ->
  shape32 x = [n; img_height; img_width; c] ->
  (forall b i j k,
     (b < n)%nat -> (i < img_height)%nat -> (j < img_width)%nat -> (k < c)%nat ->
     f32_finite (get32 x [b; i; j; k])) ->
  (b < n)%nat -> (i < img_height - 1)%nat -> (j < img_width - 1)%nat ->
  (k < c)%nat ->
  tv_term32 pow32 x [b; i; j; k] <> f32_zero ->
  f32_lt f32_zero (total_variation_loss32 img_width pow32 x) = true.
Proof.
  intros Hpow Hs Hfin Hb Hi Hj Hk Hne.
  rewrite (total_variation_loss32_unfold _ _ _ _ _ Hs).
  destruct (fold_add_nonneg _ f32_zero ltac:(reflexivity)
              (tv_terms32_nonneg_value img_width pow32 x n c Hpow Hfin))
    as [Hv Hz].
  apply nonneg_value_positive; [exact Hv|]. intros H0.
  apply Hz in H0. destruct H0 as [_ Hall].
  rewrite Forall_tabulate32 in Hall. apply Hne, (Hall [b; i; j; k]).
  repeat (apply in_range_cons; split; [assumption|]). constructor.
Qed.

Lemma stripes_image32_get (b i j k : nat) :
  (b < 1)%nat -> (i < img_height)%nat -> (j < 2)%nat -> (k < 3)%nat ->
  get32 stripes_image32 [b; i; j; k] =
  if (j =? 1)%nat then f32_one else f32_zero.
Proof.
  intros Hb Hi Hj Hk. unfold stripes_image32.
  rewrite get_build32
    by (repeat (apply in_range_cons; split; [lia|]); constructor).
  reflexivity.
Qed.

Lemma f32_sqrt_nonneg_value (x : spec_float) :
  f32_nonneg_value x -> f32_nonneg_value (f32_sqrt x).
Proof.
  destruct x as [s|s| |s m e]; cbn -[binary_round_aux SFsqrt_core_binary];
    try contradiction; try (intros ->; reflexivity).
  intros [-> _].
  pose proof (SFsqrt_core_binary_nonneg m e) as Hq.
  destruct (SFsqrt_core_binary 24 128 (Z.pos m) e) as [[mz ez] lz].
  cbn [fst] in Hq. apply rounded_false_nonneg.
  now apply binary_round_aux_sign.
Qed.

Lemma f32_mul_finite_nonneg_value (m : positive) (e : Z) (y : spec_float) :
  f32_nonneg_value y -> f32_nonneg_value (f32_mul (S754_finite false m e) y).
Proof.
  destruct y as [s|s| |s my ey]; cbn -[binary_round_aux]; try contradiction;
    try (intros ->; reflexivity).
  intros [-> _]. change (xorb false false) with false.
  apply rounded_false_nonneg, binary_round_aux_sign. lia.
Qed.

Lemma pow32_by_roots_nonneg_value (v : spec_float) :
  f32_nonneg_value v -> f32_nonneg_value (pow32_by_roots v f32_1_25).
Proof.
  intros Hv. unfold pow32_by_roots.
  destruct v as [s|s| |s m e]; cbn in Hv; try contradiction.
  - subst. reflexivity.
  - subst. reflexivity.
  - destruct Hv as [-> He]. apply f32_mul_finite_nonneg_value.
    do 2 apply f32_sqrt_nonneg_value. cbn. auto.
Qed.

(** * The operations on small inputs *)

Ltac eval_R_list := vm_compute; repeat (f_equal; try lra).

Example snapshot_name_100 :
  snapshot_name 100 = "combination_image_at_iteration_100.png"%string.
Proof. reflexivity. Qed.

Example clamp_index_negative : clamp_index 5 (-1) = 4%nat.
Proof. reflexivity. Qed.

Example clamp_index_beyond : clamp_index 5 9 = 5%nat.
Proof. reflexivity. Qed.

(** [x[:, : 2 - 1]] and [x[:, 1:]] on a matrix with rows [1 2] and [3 4]. *)
Example tf_slice_columns :
  let x := Tensor [2; 2]%nat [1; 2; 3; 4] in
  tf_slice x [Slice None None; Slice None (Some 1%Z)] = Tensor [2; 1]%nat [1; 3] /\
  tf_slice x [Slice None None; Slice (Some 1%Z) None] = Tensor [2; 1]%nat [2; 4].
Proof. split; reflexivity. Qed.

(** A [1 x 2 x 2] feature tensor: channel 0 is [1 3], channel 1 is [2 4]. *)
Example features_of_small :
  features_of (Tensor [1; 2; 2]%nat [1; 2; 3; 4]) = Tensor [2; 2]%nat [1; 3; 2; 4].
Proof. reflexivity. Qed.

Example gram_matrix_small :
  gram_matrix (Tensor [1; 2; 2]%nat [1; 2; 3; 4]) = Tensor [2; 2]%nat [10; 14; 14; 20].
Proof. eval_R_list. Qed.

Example content_loss_small :
  content_loss (Tensor [3]%nat [1; 2; 3]) (Tensor [3]%nat [2; 2; 5]) = 5.
Proof. vm_compute. lra. Qed.

Example index0_small :
  index0 (Tensor [3; 2]%nat [1; 2; 3; 4; 5; 6]) 2 = Tensor [2]%nat [5; 6].
Proof. reflexivity. Qed.

Example tf_concat0_small :
  tf_concat0 [Tensor [1; 2]%nat [1; 2]; Tensor [1; 2]%nat [3; 4]] =
  Tensor [2; 2]%nat [1; 2; 3; 4].
Proof. reflexivity. Qed.

Example to_uint8_small : to_uint8 (Rmin (Rmax (2559 / 10) 0) 255) = 255%Z.
Proof.
  rewrite to_uint8_clip. symmetry. apply Int_part_spec.
  unfold Rmin, Rmax.
  destruct (Rle_dec (2559 / 10) 0); destruct (Rle_dec _ 255); lra.
Qed.

Example add_to_channel_small :
  add_to_channel (Tensor [1; 1; 3]%nat [1; 2; 3]) 0 10 = Tensor [1; 1; 3]%nat [11; 2; 3].
Proof. eval_R_list. Qed.

Example reverse_channels_small :
  reverse_channels (Tensor [1; 2; 3]%nat [1; 2; 3; 4; 5; 6]) =
  Tensor [1; 2; 3]%nat [3; 2; 1; 6; 5; 4].
Proof. reflexivity. Qed.

(** The float32 operations on small inputs. *)

Example f32_constants :
  f32_of_f64 total_variation_weight64 = S754_finite false 8796093 (-43) /\
  f32_of_f64 content_weight64 = S754_finite false 14073749 (-49) /\
  f32_of_f64 (style_normaliser64 600) = S754_finite false 15820312 17.
Proof. repeat split; vm_compute; reflexivity. Qed.

Example f32_square_underflows :
  f32_mul f32_2_pow_m80 f32_2_pow_m80 = f32_zero.
Proof. reflexivity. Qed.

Example f32_inf_minus_inf : f32_sub f32_inf f32_inf = S754_nan.
Proof. reflexivity. Qed.

(** One plus one is two, one times 1.25 is 1.25. *)
Example f32_arithmetic_small :
  f32_add f32_one f32_one = S754_finite false 8388608 (-22) /\
  f32_mul f32_one f32_1_25 = f32_1_25.
Proof. split; reflexivity. Qed.

Example gram_matrix32_small :
  gram_matrix32 (Tensor32 [1; 1; 1]%nat [f32_2_pow_70]) =
  Tensor32 [1; 1]%nat [f32_inf].
Proof. reflexivity. Qed.

Example content_loss32_small :
  content_loss32 (Tensor32 [2]%nat [f32_one; f32_zero])
                 (Tensor32 [2]%nat [f32_zero; f32_one]) =
  S754_finite false 8388608 (-22).
Proof. reflexivity. Qed.

(** * Claims *)

(** C5 (as stated, refuted).  In float32 the two one-entry tensors [0] and
    [2^-80] are different, and their content loss is zero: the squared
    difference [2^-160] is below the smallest float32 number and rounds to
    [+0].  The loss is not strictly positive. *)
Lemma content_loss32_underflow :
  let a := Tensor32 [1%nat] [f32_zero] in
  let b := Tensor32 [1%nat] [f32_2_pow_m80] in
  shape32 a = shape32 b /\
  a <> b /\
  content_loss32 a b = f32_zero /\
  f32_lt f32_zero (content_loss32 a b) = false.
Proof.
  intros a b. split; [reflexivity|]. split; [discriminate|].
  split; reflexivity.
Qed.

(** C5 (amended).  For two float32 tensors of the same shape whose entries
    are finite, the content loss is the sum of the squared differences of
    the entries, with no division by the size.  It is [+0] when the tensors
    are identical, and whenever every squared difference rounds to [+0].  It
    is never negative and never NaN.  When it is not [+0] it is strictly
    positive (a positive number or [+inf]) and the tensors differ; it is
    strictly positive as soon as one squared difference is at least
    [2^-126].  The sum of the squared differences taken in any order and
    grouping is likewise [+0] when the tensors are identical, never negative
    and never NaN, and strictly positive as soon as one squared difference
    is at least [2^-126]. *)
Theorem content_loss32_zero_or_positive (a b : tensor32) :
  shape32 a = shape32 b ->
  Forall f32_finite (data32 a) -> Forall f32_finite (data32 b) ->
  content_loss32 a b =
    fold_left f32_add (squared_differences32 a b) f32_zero /\
  (a = b -> content_loss32 a b = f32_zero) /\
  (Forall (fun q => q = f32_zero) (squared_differences32 a b) ->
   content_loss32 a b = f32_zero) /\
  f32_le f32_zero (content_loss32 a b) = true /\
  (content_loss32 a b <> f32_zero ->
   f32_lt f32_zero (content_loss32 a b) = true /\ a <> b) /\
  (Exists (fun q => f32_le f32_min_normal q = true)
          (squared_differences32 a b) ->
   f32_lt f32_zero (content_loss32 a b) = true) /\
  (forall s, additions (squared_differences32 a b) s ->
     f32_le f32_zero s = true /\
     (a = b -> s = f32_zero) /\
     (Exists (fun q => f32_le f32_min_normal q = true)
             (squared_differences32 a b) ->
      f32_lt f32_zero s = true)).
Proof.
  intros _ Ha Hb.
  pose proof (squared_differences32_nonneg a b Ha Hb) as Hnn.
  destruct (fold_add_nonneg (squared_differences32 a b) f32_zero
              ltac:(reflexivity) Hnn) as [Hval Hzero].
  rewrite <- content_loss32_unfold in Hval, Hzero.
  assert (Hsame : a = b -> content_loss32 a b = f32_zero).
  { intros <-. rewrite content_loss32_unfold.
    apply fold_add_zeros, squared_differences32_self, Ha. }
  split; [apply content_loss32_unfold|]. split; [exact Hsame|].
  split; [intros Hall; apply Hzero; now split|].
  split; [now apply nonneg_value_le|].
  assert (Hbig : forall l,
            Exists (fun q => f32_le f32_min_normal q = true) l ->
            ~ Forall (fun v => v = f32_zero) l).
  { intros l Hex Hall.
    apply List.Exists_exists in Hex. destruct Hex as (q & Hq & Hle).
    rewrite List.Forall_forall in Hall. rewrite (Hall q Hq) in Hle.
    discriminate. }
  split.
  { intros Hne. split; [now apply nonneg_value_positive|].
    intros Heq. apply Hne, Hsame, Heq. }
  split.
  { intros Hex. apply nonneg_value_positive; [exact Hval|].
    intros H0. apply Hzero in H0. destruct H0 as [_ Hall].
    exact (Hbig _ Hex Hall). }
  intros s Hs. destruct (additions_nonneg _ _ Hs Hnn) as [Hv Hz].
  split; [now apply nonneg_value_le|]. split.
  - intros <-. apply Hz, squared_differences32_self, Ha.
  - intros Hex. apply nonneg_value_positive; [exact Hv|].
    intros H0. apply Hz in H0. exact (Hbig _ Hex H0).
Qed.

Lemma content_loss32_zero_or_positive_witness :
  let a := Tensor32 [2%nat] [f32_one; f32_2_pow_m80] in
  let b := Tensor32 [2%nat] [f32_zero; f32_zero] in
  f32_lt f32_zero (content_loss32 a b) = true.
Proof.
  intros a b.
  destruct (content_loss32_zero_or_positive a b) as (_ & _ & _ & _ & _ & H & _).
  - reflexivity.
  - repeat constructor.
  - repeat constructor.
  - apply H. apply Exists_cons_hd. reflexivity.
Defined.

(** C7.  The Gram matrix of a feature tensor of shape [h; w; c] equals its
    own transpose. *)
Theorem gram_matrix_symmetric (x : tensor) (h w c : nat) :
  shape x = [h; w; c] ->
  tf_transpose (gram_matrix x) [1; 0]%nat = gram_matrix x.
Proof.
  intros Hs. rewrite (gram_matrix_build x h w c Hs).
  rewrite (tf_transpose_matrix _ c c) by reflexivity.
  unfold build at 1 3. f_equal. apply tabulate_ext. intros idx Hidx.
  apply in_range_2 in Hidx. destruct Hidx as (i & j & -> & Hi & Hj).
  rewrite get_build by (apply in_range_2_intro; assumption).
  apply gram_entry_sym.
Qed.

Lemma gram_matrix_symmetric_witness :
  let x := Tensor [1; 2; 2]%nat [1; 2; 3; 4] in
  tf_transpose (gram_matrix x) [1; 0]%nat = gram_matrix x.
Proof.
  intros x. apply (gram_matrix_symmetric x 1 2 2). reflexivity.
Defined.

(** C10.  On tensors of equal shapes, [content_loss] and [style_loss] do not
    depend on the order of their two arguments. *)
Theorem losses_symmetric (img_width : nat) (a b s c : tensor) :
  shape a = shape b -> shape s = shape c ->
  content_loss a b = content_loss b a /\
  style_loss img_width s c = style_loss img_width c s.
Proof.
  intros _ _. split.
  - unfold content_loss. apply sum_sq_diff_sym.
  - unfold style_loss. now rewrite sum_sq_diff_sym.
Qed.

Lemma losses_symmetric_witness :
  let a := Tensor [1; 1; 2]%nat [1; 2] in
  let b := Tensor [1; 1; 2]%nat [3; 5] in
  content_loss a b = content_loss b a /\
  style_loss 600 a b = style_loss 600 b a.
Proof.
  intros a b. apply (losses_symmetric 600 a b a b); reflexivity.
Defined.

(** C9 (as stated, refuted).  In float32 the content loss of the one-entry
    tensors [+inf] and [+inf] is NaN ([inf - inf]).  The style loss of the
    finite one-entry feature tensor [2^70] with itself is NaN as well: its
    Gram entry [2^140] overflows to [+inf], and [inf - inf] is NaN.  NaN is
    not greater than or equal to zero. *)
Lemma losses32_nan :
  let a := Tensor32 [1%nat] [f32_inf] in
  let s := Tensor32 [1; 1; 1]%nat [f32_2_pow_70] in
  content_loss32 a a = S754_nan /\
  f32_le f32_zero (content_loss32 a a) = false /\
  Forall f32_finite (data32 s) /\
  style_loss32 600 s s = S754_nan /\
  f32_le f32_zero (style_loss32 600 s s) = false.
Proof.
  intros a s. split; [reflexivity|]. split; [reflexivity|].
  split; [repeat constructor|]. split; vm_compute; reflexivity.
Qed.

(** C9 (amended).  Whatever the inputs, each of the three float32 losses is
    never a negative number: it is NaN or greater than or equal to zero; the
    three weights are positive, and the combined loss is likewise NaN or not
    negative.  On finite inputs the content loss and the total variation
    loss are not NaN, hence greater than or equal to zero.  ([tf.pow] is
    taken to return a value that is not negative, or NaN, on a base that is
    not negative, or NaN.) *)
Theorem losses32_never_negative (img_width : nat)
  (feature_extractor32 : tensor32 -> string -> tensor32)
  (pow32 : spec_float -> spec_float -> spec_float)
  (a b s c x base style : tensor32) (n ch : nat) :
  (forall v, sign_clear v -> sign_clear (pow32 v f32_1_25)) ->
  let never_negative v := v = S754_nan \/ f32_le f32_zero v = true in
  never_negative (content_loss32 a b) /\
  never_negative (style_loss32 img_width s c) /\
  never_negative (total_variation_loss32 img_width pow32 x) /\
  f32_lt f32_zero (f32_of_f64 content_weight64) = true /\
  f32_lt f32_zero (f32_of_f64 style_weight64) = true /\
  f32_lt f32_zero (f32_of_f64 total_variation_weight64) = true /\
  never_negative
    (compute_loss32 img_width feature_extractor32 pow32 x base style) /\
  (Forall f32_finite (data32 a) -> Forall f32_finite (data32 b) ->
   f32_le f32_zero (content_loss32 a b) = true) /\
  ((forall v, f32_nonneg_value v -> f32_nonneg_value (pow32 v f32_1_25)) ->
   shape32 x = [n; img_height; img_width; ch] ->
   (forall p i j k,
      (p < n)%nat -> (i < img_height)%nat -> (j < img_width)%nat ->
      (k < ch)%nat -> f32_finite (get32 x [p; i; j; k])) ->
   f32_le f32_zero (total_variation_loss32 img_width pow32 x) = true).
Proof.
  intros Hpow never_negative. unfold never_negative.
  split; [apply sign_clear_never_negative, content_loss32_sign_clear|].
  split; [apply sign_clear_never_negative, style_loss32_sign_clear|].
  split; [now apply sign_clear_never_negative,
            total_variation_loss32_sign_clear|].
  split; [reflexivity|]. split; [reflexivity|]. split; [reflexivity|].
  split; [now apply sign_clear_never_negative, compute_loss32_sign_clear|].
  split.
  - intros Ha Hb. apply nonneg_value_le. rewrite content_loss32_unfold.
    apply fold_add_nonneg; [reflexivity|].
    now apply squared_differences32_nonneg.
  - intros Hnn Hs Hfin. apply nonneg_value_le.
    now apply (total_variation_loss32_nonneg_value img_width pow32 x n ch).
Qed.

Lemma losses32_never_negative_witness :
  let v := compute_loss32 2 (fun t _ => t) pow32_by_roots
             stripes_image32 corner_image32 faint_image32 in
  v = S754_nan \/ f32_le f32_zero v = true.
Proof.
  intros v.
  destruct (losses32_never_negative 2 (fun t _ => t) pow32_by_roots
              corner_image32 stripes_image32 faint_image32 stripes_image32
              stripes_image32 corner_image32 faint_image32 1 3
              pow32_by_roots_sign_clear)
    as (_ & _ & _ & _ & _ & _ & H & _).
  exact H.
Defined.

(** C2 (as stated, refuted).  A picture of the notebook's height whose
    bottom-right pixel differs from all the others contains unequal pixel
    values, and its total variation loss is zero, not strictly positive. *)
Lemma corner_pixel_variation_undetected :
  shape corner_image = [1; img_height; 2; 3]%nat /\
  well_formed corner_image /\
  get corner_image [0; 0; 0; 0]%nat <>
    get corner_image [0; img_height - 1; 1; 0]%nat /\
  total_variation_loss 2 corner_image = 0 /\
  ~ 0 < total_variation_loss 2 corner_image.
Proof.
  pose proof img_height_pos as Hpos.
  assert (Htv : total_variation_loss 2 corner_image = 0).
  { apply (total_variation_loss_zero_of_smooth 2 corner_image 1 3); [reflexivity|].
    intros b i j k Hb Hi Hj Hk. unfold corner_image.
    rewrite !get_build
      by (repeat (apply in_range_cons; split; [lia|]); constructor).
    assert (j = 0%nat) as -> by lia.
    destruct (Nat.eqb_spec i (img_height - 1)); [lia|].
    destruct (Nat.eqb_spec (S i) (img_height - 1)); simpl; split; reflexivity. }
  split; [reflexivity|]. split; [apply well_formed_build|].
  split; [|split; [exact Htv | lra]].
  unfold corner_image.
  rewrite !get_build
    by (repeat (apply in_range_cons; split; [lia|]); constructor).
  rewrite Nat.eqb_refl.
  destruct (Nat.eqb_spec 0 (img_height - 1)); simpl; lra.
Qed.

(** C2 (amended).  On a batch of float32 pictures of the notebook's size the
    total variation loss is [+0] for every flat-colour picture of finite
    values and, more generally, whenever no finite pixel outside the last row
    and the last column differs from the pixel below it or from the pixel to
    its right; it is never a negative number (it is NaN or greater than or
    equal to zero); it is different from [+0] only if some pixel of that
    block differs from one of these two neighbours or is not finite; it does
    not read the bottom-right pixel; and a difference inside the block can
    leave it at [+0], as for the picture whose top-left pixel alone is
    [2^-80].  On a picture of finite pixels it is strictly positive as soon
    as one of the terms it adds is at least [2^-126]; this is the case, for a
    [tf.pow] that returns at least 1 on a base that is at least 1, as soon
    as, at some pixel outside the last row and the last column, the squared
    differences to the pixel below and to the pixel to the right add up to
    at least 1.  ([tf.pow] is taken to return [+0] at [+0], and a value that
    is not negative, or NaN, on a base that is not negative, or NaN.) *)
Theorem total_variation_loss32_zero_when_smooth (img_width : nat)
  (pow32 : spec_float -> spec_float -> spec_float) (x y : tensor32) (n c : nat) :
  pow32 f32_zero f32_1_25 = f32_zero ->
  (forall v, sign_clear v -> sign_clear (pow32 v f32_1_25)) ->
  shape32 x = [n; img_height; img_width; c] ->
  shape32 y = [n; img_height; img_width; c] ->
  (constant_image32 x n img_height img_width c ->
     total_variation_loss32 img_width pow32 x = f32_zero) /\
  (smooth_block32 x n img_height img_width c ->
     total_variation_loss32 img_width pow32 x = f32_zero) /\
  (total_variation_loss32 img_width pow32 x = S754_nan \/
   f32_le f32_zero (total_variation_loss32 img_width pow32 x) = true) /\
  (total_variation_loss32 img_width pow32 x <> f32_zero ->
     ~ smooth_block32 x n img_height img_width c) /\
  ((forall b i j k,
      (b < n)%nat -> (i < img_height)%nat -> (j < img_width)%nat ->
      (k < c)%nat -> (i <> img_height - 1 \/ j <> img_width - 1)%nat ->
      get32 y [b; i; j; k] = get32 x [b; i; j; k]) ->
   total_variation_loss32 img_width pow32 y =
   total_variation_loss32 img_width pow32 x) /\
  (~ smooth_block32 faint_image32 1 img_height 2 3 /\
   total_variation_loss32 2 pow32 faint_image32 = f32_zero) /\
  ((forall v, f32_nonneg_value v -> f32_nonneg_value (pow32 v f32_1_25)) ->
   (forall b i j k,
      (b < n)%nat -> (i < img_height)%nat -> (j < img_width)%nat ->
      (k < c)%nat -> f32_finite (get32 x [b; i; j; k])) ->
   forall b i j k,
     (b < n)%nat -> (i < img_height - 1)%nat -> (j < img_width - 1)%nat ->
     (k < c)%nat ->
     (f32_le f32_min_normal (tv_term32 pow32 x [b; i; j; k]) = true ->
      f32_lt f32_zero (total_variation_loss32 img_width pow32 x) = true) /\
     ((forall v, f32_le f32_one v = true ->
                 f32_le f32_one (pow32 v f32_1_25) = true) ->
      f32_le f32_one (squared_steps32 x [b; i; j; k]) = true ->
      f32_lt f32_zero (total_variation_loss32 img_width pow32 x) = true)).
Proof.
  intros Hzero Hsign Hx Hy.
  assert (Hsmooth : forall z, shape32 z = [n; img_height; img_width; c] ->
            smooth_block32 z n img_height img_width c ->
            total_variation_loss32 img_width pow32 z = f32_zero).
  { intros z Hz Hsm. rewrite (total_variation_loss32_unfold _ _ _ _ _ Hz).
    apply fold_add_zeros, Forall_tabulate32. intros idx Hidx.
    apply in_range_4 in Hidx.
    destruct Hidx as (b & i & j & k & -> & Hb & Hi & Hj & Hk).
    destruct (Hsm b i j k Hb Hi Hj Hk) as (Hf & H1 & H2).
    now apply tv_term32_smooth. }
  split.
  { intros [colour Hc]. apply (Hsmooth x Hx). intros b i j k Hb Hi Hj Hk.
    destruct (Hc b i j k Hb ltac:(lia) ltac:(lia) Hk) as [H0 Hf].
    destruct (Hc b (S i) j k Hb ltac:(lia) ltac:(lia) Hk) as [H1 _].
    destruct (Hc b i (S j) k Hb ltac:(lia) ltac:(lia) Hk) as [H2 _].
    rewrite H0, H1, H2. auto. }
  split; [exact (Hsmooth x Hx)|].
  split; [now apply sign_clear_never_negative,
            total_variation_loss32_sign_clear|].
  split; [intros Hne Hsm; apply Hne, (Hsmooth x Hx), Hsm|].
  split.
  { intros Hagree.
    rewrite (total_variation_loss32_unfold _ _ _ _ _ Hx),
            (total_variation_loss32_unfold _ _ _ _ _ Hy).
    f_equal. apply tabulate32_ext. intros idx Hidx. apply in_range_4 in Hidx.
    destruct Hidx as (b & i & j & k & -> & Hb & Hi & Hj & Hk).
    unfold tv_term32. rewrite !Hagree by lia. reflexivity. }
  pose proof img_height_pos as Hpos.
  assert (Hget : forall b i j k,
            (b < 1)%nat -> (i < img_height)%nat -> (j < 2)%nat -> (k < 3)%nat ->
            get32 faint_image32 [b; i; j; k] =
            if ((i =? 0) && (j =? 0))%nat then f32_2_pow_m80 else f32_zero).
  { intros b i j k Hb Hi Hj Hk. unfold faint_image32.
    rewrite get_build32
      by (repeat (apply in_range_cons; split; [lia|]); constructor).
    reflexivity. }
  split.
  { split.
    - intros Hsm.
      assert (H2 : (2 <= img_height)%nat) by (unfold img_height; lia).
      destruct (Hsm 0 0 0 0)%nat as (_ & H1 & _); try lia.
      rewrite !Hget in H1 by lia. discriminate.
    - assert (H2 : (2 <= img_height)%nat) by (unfold img_height; lia).
      rewrite (total_variation_loss32_unfold 2 pow32 faint_image32 1 3 eq_refl).
      apply fold_add_zeros, Forall_tabulate32. intros idx Hidx.
      apply in_range_4 in Hidx.
      destruct Hidx as (b & i & j & k & -> & Hb & Hi & Hj & Hk).
      unfold tv_term32. rewrite !Hget by lia.
      assert (j = 0%nat) as -> by lia.
      destruct i as [|i]; cbn [Nat.eqb andb]; exact Hzero. }
  intros Hnn Hfin b i j k Hb Hi Hj Hk.
  assert (Hpos' : tv_term32 pow32 x [b; i; j; k] <> f32_zero ->
            f32_lt f32_zero (total_variation_loss32 img_width pow32 x) = true).
  { now apply (total_variation_loss32_positive img_width pow32 x n c b i j k). }
  split.
  - intros Hle. apply Hpos'. intros H0. rewrite H0 in Hle. discriminate.
  - intros Hone Hle. apply Hpos'. intros H0.
    apply Hone in Hle. rewrite <- tv_term32_squared_steps, H0 in Hle.
    discriminate.
Qed.

Lemma total_variation_loss32_zero_when_smooth_witness :
  total_variation_loss32 2 pow32_by_roots corner_image32 = f32_zero /\
  f32_lt f32_zero (total_variation_loss32 2 pow32_by_roots stripes_image32) = true.
Proof.
  pose proof img_height_pos as Hpos.
  assert (H2 : (2 <= img_height)%nat) by (unfold img_height; lia).
  split.
  - apply (proj1 (proj2 (total_variation_loss32_zero_when_smooth 2
             pow32_by_roots corner_image32 corner_image32 1 3
             pow32_by_roots_zero pow32_by_roots_sign_clear eq_refl eq_refl))).
    intros b i j k Hb Hi Hj Hk. unfold corner_image32.
    rewrite !get_build32
      by (repeat (apply in_range_cons; split; [lia|]); constructor).
    assert (j = 0%nat) as -> by lia.
    destruct (Nat.eqb_spec i (img_height - 1)); [lia|].
    destruct (Nat.eqb_spec (S i) (img_height - 1)); cbn [andb Nat.eqb];
      repeat split; reflexivity.
  - destruct (total_variation_loss32_zero_when_smooth 2 pow32_by_roots
                stripes_image32 stripes_image32 1 3 pow32_by_roots_zero
                pow32_by_roots_sign_clear eq_refl eq_refl)
      as (_ & _ & _ & _ & _ & _ & H).
    refine (proj1 (H pow32_by_roots_nonneg_value _ 0 0 0 0 _ _ _ _)%nat _);
      try lia.
    + intros b i j k Hb Hi Hj Hk. rewrite stripes_image32_get by lia.
      destruct (j =? 1)%nat; exact I.
    + unfold tv_term32. rewrite !stripes_image32_get by lia.
      vm_compute. reflexivity.
Defined.

(** C1 (as stated, refuted).  For two feature tensors with one channel and
    one spatial position the loss of the code is not the sum of the squared
    differences of the Gram matrices divided by [4 * channels^2 * size^2]
    with the channels and the size of the compared tensors. *)
Lemma style_loss_differs_from_spec :
  let s := Tensor [1; 1; 1]%nat [1] in
  let c := Tensor [1; 1; 1]%nat [0] in
  shape s = shape c /\
  style_loss_spec s c = 1 / 4 /\
  style_loss 600 s c = 1 / (4 * 3 ^ 2 * (400 * 600) ^ 2) /\
  style_loss 600 s c <> style_loss_spec s c.
Proof.
  intros s c.
  assert (Hsum : tf_reduce_sum (tf_square (tsub (gram_matrix s) (gram_matrix c))) = 1).
  { vm_compute. lra. }
  assert (Hspec : style_loss_spec s c = 1 / 4).
  { unfold style_loss_spec. rewrite Hsum. simpl. lra. }
  assert (Hcode : style_loss 600 s c = 1 / (4 * 3 ^ 2 * (400 * 600) ^ 2)).
  { unfold style_loss. rewrite Hsum, mult_INR, INR_img_height.
    rewrite (INR_IZR_INZ 600). reflexivity. }
  split; [reflexivity|]. split; [exact Hspec|]. split; [exact Hcode|].
  rewrite Hcode, Hspec. lra.
Qed.

(** C1 (amended).  The per-layer style loss is the sum of the squared
    differences of the two Gram matrices divided by
    [4 * 3^2 * (img_height * img_width)^2]: the normaliser is fixed by the
    size of the picture, whatever the shape of the feature tensors.  The
    style term of the combined loss is [style_weight] times the average of
    the per-layer losses over the five layers of [style_layer_names]. *)
Theorem style_loss_fixed_normaliser (img_width : nat)
  (feature_extractor : tensor -> string -> tensor)
  (s c x base style : tensor) :
  style_loss img_width s c =
    tf_reduce_sum (tf_square (tsub (gram_matrix s) (gram_matrix c)))
    / (4 * 3 ^ 2 * (400 * INR img_width) ^ 2) /\
  length style_layer_names = 5%nat /\
  compute_loss img_width feature_extractor x base style =
    content_weight * content_term feature_extractor x base style +
    style_weight *
      (sum_list_R (layer_style_losses img_width feature_extractor x base style)
       / 5) +
    total_variation_weight * total_variation_loss img_width x.
Proof.
  split; [|split; [reflexivity | apply compute_loss_unfold]].
  unfold style_loss. now rewrite mult_INR, INR_img_height.
Qed.

(** C3 (as stated, refuted).  The schedule is not constant on a window of
    100 steps: at step 50 the rate is already below the initial rate 100,
    which is the value [100 * 0.96 ^ floor (50 / 100)] of the claim. *)
Lemma rate_not_constant_on_window :
  staircase_rate 50 = 100 /\
  decayed_learning_rate lr_schedule 50 < decayed_learning_rate lr_schedule 0 /\
  decayed_learning_rate lr_schedule 50 <> staircase_rate 50.
Proof.
  assert (Hs : staircase_rate 50 = 100).
  { unfold staircase_rate. change (50 / 100)%nat with 0%nat. simpl. lra. }
  assert (H0 : decayed_learning_rate lr_schedule 0 = 100).
  { rewrite lr_schedule_rate. simpl INR. replace (0 / 100) with 0 by lra.
    rewrite Rpower_O; lra. }
  assert (H50 : decayed_learning_rate lr_schedule 50 < 100).
  { rewrite <- H0, !lr_schedule_rate.
    apply Rmult_lt_compat_l; [lra|].
    apply Rpower_base_lt_1_decreasing; [lra|].
    rewrite (INR_IZR_INZ 50), (INR_IZR_INZ 0).
    change (Z.of_nat 50) with 50%Z. change (Z.of_nat 0) with 0%Z. lra. }
  split; [exact Hs|]. split; [lra|]. rewrite Hs. lra.
Qed.

(** C3 (amended).  The rate at step [n] is [100 * 0.96 ^ (n / 100)] with the
    real quotient [n / 100]: it starts from 100, strictly decreases at every
    step, is multiplied by 0.96 over any 100 steps, and is
    [100 * 0.96 ^ k] at the steps [100 * k].  A descent step uses the rate
    at the step counter of the optimiser and then increments the counter. *)
Theorem learning_rate_smooth_decay (n k : nat) (st : state) (grads : tensor) :
  decayed_learning_rate lr_schedule n = 100 * Rpower (96 / 100) (INR n / 100) /\
  decayed_learning_rate lr_schedule 0 = 100 /\
  decayed_learning_rate lr_schedule (S n) < decayed_learning_rate lr_schedule n /\
  decayed_learning_rate lr_schedule (n + 100) =
    96 / 100 * decayed_learning_rate lr_schedule n /\
  decayed_learning_rate lr_schedule (100 * k) = 100 * (96 / 100) ^ k /\
  combination_image (apply_gradients st grads) =
    assign_sub_scaled (decayed_learning_rate lr_schedule (opt_iterations st))
                      (combination_image st) grads /\
  opt_iterations (apply_gradients st grads) = S (opt_iterations st).
Proof.
  split; [apply lr_schedule_rate|].
  split.
  { rewrite lr_schedule_rate. simpl INR. replace (0 / 100) with 0 by lra.
    rewrite Rpower_O; lra. }
  split.
  { rewrite !lr_schedule_rate. apply Rmult_lt_compat_l; [lra|].
    apply Rpower_base_lt_1_decreasing; [lra|]. rewrite S_INR. lra. }
  split.
  { rewrite !lr_schedule_rate, plus_INR, (INR_IZR_INZ 100).
    change (Z.of_nat 100) with 100%Z.
    replace ((INR n + 100) / 100) with (INR n / 100 + 1) by lra.
    rewrite Rpower_plus, Rpower_1 by lra. lra. }
  split.
  { rewrite lr_schedule_rate, mult_INR, (INR_IZR_INZ 100).
    change (Z.of_nat 100) with 100%Z.
    replace (100 * INR k / 100) with (INR k) by lra.
    rewrite Rpower_pow by lra. reflexivity. }
  split; reflexivity.
Qed.

(** C6.  On an array of [img_height * img_width * 3] values,
    [deprocess_image] returns an image of that shape, each of whose values
    is the integer part of a value clipped to [0, 255] and lies between 0
    and 255. *)
Theorem deprocess_image_byte_range (img_width : nat) (h : heap) (img : ndarray)
  (d : list R) :
  h !! buf img = Some d ->
  length d = (img_height * img_width * 3)%nat ->
  exists h' out,
    deprocess_image img_width h img = Some (h', out) /\
    u8_shape out = [img_height; img_width; 3%nat] /\
    length (u8_data out) = (img_height * img_width * 3)%nat /\
    u8_data out =
      map (fun v => Int_part (Rmin (Rmax v 0) 255))
          (data (reverse_channels (add_mean_pixel img_width d))) /\
    Forall (fun v => (0 <= v <= 255)%Z) (u8_data out).
Proof.
  intros Hl Hlen. rewrite (deprocess_image_ok img_width h img d Hl Hlen).
  eexists _, _. split; [reflexivity|].
  unfold snapshot_of, astype_uint8, np_clip. cbn [u8_shape u8_data data shape].
  split; [reflexivity|]. split.
  { rewrite !length_map. apply length_reverse_add_mean. }
  split.
  { rewrite map_map. apply map_ext. intros v. apply to_uint8_clip. }
  rewrite map_map. apply List.Forall_forall. intros z Hz.
  apply in_map_iff in Hz. destruct Hz as (v & <- & _). apply to_uint8_range.
Qed.

Lemma deprocess_image_byte_range_witness :
  exists h' out,
    deprocess_image 1 ({[ 0%nat := repeat 300 (img_height * 1 * 3) ]} : heap)
                    (NdArray 0%nat [1; img_height; 1; 3]%nat) = Some (h', out) /\
    Forall (fun v => (0 <= v <= 255)%Z) (u8_data out).
Proof.
  destruct (deprocess_image_byte_range 1
              ({[ 0%nat := repeat 300 (img_height * 1 * 3) ]} : heap)
              (NdArray 0%nat [1; img_height; 1; 3]%nat)
              (repeat 300 (img_height * 1 * 3)))
    as (h' & out & H1 & _ & _ & _ & H2).
  - apply lookup_singleton_eq.
  - apply repeat_length.
  - exists h', out. split; assumption.
Defined.

(** C4.  Started on a picture of the notebook's size, the loop runs its
    4000 iterations whatever the losses and gradients are: no iteration
    fails or stops the run, the optimiser has then made 4000 steps, and the
    files written are the snapshots of the generated image after the
    iterations 100, 200, ..., 4000, the multiples of 100, each under the
    name built from its iteration number; different iterations give
    different names. *)
Theorem optimization_loop_runs_full_budget (img_width : nat)
  (feature_extractor : tensor -> string -> tensor)
  (tape_gradient : (tensor -> R) -> tensor -> tensor) (base style : list R) :
  (forall f x, length (data (tape_gradient f x)) = length (data x)) ->
  length base = (img_height * img_width * 3)%nat ->
  let x := descend img_width feature_extractor tape_gradient base style in
  (forall n, exists st',
     run_loop img_width feature_extractor tape_gradient n
       (initial_state img_width base style) = Some st' /\
     opt_iterations st' = n) /\
  exists st,
    run img_width feature_extractor tape_gradient base style = Some st /\
    opt_iterations st = 4000%nat /\
    combination_image st = x 4000%nat /\
    saved st =
      map (fun i => (snapshot_name i, snapshot_of img_width (x i)))
          (map (fun k => 100 * k)%nat (seq 1 40)) /\
    (forall i, In i (snapshot_iterations iterations) <->
               (1 <= i <= 4000)%nat /\ (i mod 100 = 0)%nat) /\
    (forall i j, snapshot_name i = snapshot_name j -> i = j).
Proof.
  intros Hgrad Hbase x. split.
  - intros n.
    destruct (run_loop_invariant img_width feature_extractor tape_gradient
                base style Hgrad Hbase n) as (st & Hrun & Hinv).
    exists st. split; [exact Hrun | apply Hinv].
  - destruct (run_loop_invariant img_width feature_extractor tape_gradient
                base style Hgrad Hbase iterations)
      as (st & Hrun & _ & _ & _ & Hx & Hit & Hsaved & _).
    exists st. split; [exact Hrun|]. split; [exact Hit|]. split; [exact Hx|].
    split.
    + assert (Hsi : snapshot_iterations iterations =
                    map (fun k => 100 * k)%nat (seq 1 40))
        by (vm_compute; reflexivity).
      rewrite Hsaved, Hsi. reflexivity.
    + split; [|exact snapshot_name_inj].
      intros i. unfold snapshot_iterations. rewrite filter_In, in_seq, Nat.eqb_eq.
      change iterations with 4000%nat. lia.
Qed.

Lemma optimization_loop_runs_full_budget_witness :
  exists st,
    run 1 (fun t _ => t) (fun _ t => t)
        (repeat 0 (img_height * 1 * 3)) (repeat 0 (img_height * 1 * 3)) = Some st /\
    opt_iterations st = 4000%nat.
Proof.
  destruct (optimization_loop_runs_full_budget 1 (fun t _ => t) (fun _ t => t)
              (repeat 0 (img_height * 1 * 3)) (repeat 0 (img_height * 1 * 3)))
    as (_ & st & Hrun & Hit & _).
  - intros f t. reflexivity.
  - apply repeat_length.
  - exists st. split; assumption.
Defined.

(** C8.  After any number of iterations of the loop the arrays of the
    content image and of the style image hold the values they were given
    before the loop; a descent step changes the variable of the generated
    image and the step counter of the optimiser, and nothing else: not the
    heap of arrays, not the files, not the output. *)
Theorem content_and_style_images_unchanged (img_width : nat)
  (feature_extractor : tensor -> string -> tensor)
  (tape_gradient : (tensor -> R) -> tensor -> tensor) (base style : list R)
  (n : nat) :
  (forall f x, length (data (tape_gradient f x)) = length (data x)) ->
  length base = (img_height * img_width * 3)%nat ->
  exists st,
    run_loop img_width feature_extractor tape_gradient n
      (initial_state img_width base style) = Some st /\
    read_array (st_heap st) (base_image img_width) =
      read_array (st_heap (initial_state img_width base style))
                 (base_image img_width) /\
    read_array (st_heap st) (style_reference_image img_width) =
      read_array (st_heap (initial_state img_width base style))
                 (style_reference_image img_width) /\
    read_array (st_heap st) (base_image img_width) =
      Some (Tensor [1; img_height; img_width; 3]%nat base) /\
    read_array (st_heap st) (style_reference_image img_width) =
      Some (Tensor [1; img_height; img_width; 3]%nat style) /\
    (forall grads,
       st_heap (apply_gradients st grads) = st_heap st /\
       saved (apply_gradients st grads) = saved st /\
       printed (apply_gradients st grads) = printed st).
Proof.
  intros Hgrad Hbase.
  destruct (run_loop_invariant img_width feature_extractor tape_gradient
              base style Hgrad Hbase n) as (st & Hrun & Hb & Hs & _).
  exists st. split; [exact Hrun|].
  unfold read_array. rewrite Hb, Hs.
  repeat split; reflexivity.
Qed.

Lemma content_and_style_images_unchanged_witness :
  exists st,
    run_loop 1 (fun t _ => t) (fun _ t => t) 200
      (initial_state 1 (repeat 0 (img_height * 1 * 3))
                       (repeat 1 (img_height * 1 * 3))) = Some st /\
    read_array (st_heap st) (style_reference_image 1) =
      Some (Tensor [1; img_height; 1; 3]%nat (repeat 1 (img_height * 1 * 3))).
Proof.
  destruct (content_and_style_images_unchanged 1 (fun t _ => t) (fun _ t => t)
              (repeat 0 (img_height * 1 * 3)) (repeat 1 (img_height * 1 * 3)) 200)
    as (st & Hrun & _ & _ & _ & Hs & _).
  - intros f t. reflexivity.
  - apply repeat_length.
  - exists st. split; assumption.
Defined.
